(** * The event-to-task pipeline of file-event-manager, embedded in Rocq

    The development follows the Python sources module by module:
    - [asynchronous/validator.py]: [BaseValidator], [FileValidator],
      [FolderValidator] and [CompositeValidator];
    - [asynchronous/processor.py]: [EventProcessor.process_events];
    - [synchronous/event_handler.py]: the polling [validate] of
      [TestDataEventHandler] and [LastShotEventHandler].

    Library objects the sources rely on ([pathlib.Path], [datetime], compiled
    regular expressions, [asyncio.Queue], [os.stat], [time.time]) are given
    small executable models, each described where it is introduced. *)

From Stdlib Require Import Ascii.
From stdpp Require Import gmap strings list fin_maps pretty.

Local Open Scope string_scope.
Local Open Scope Z_scope.
Local Open Scope list_scope.

(** ** Strings *)

(** Python's [needle in hay] on strings. *)
Fixpoint contains (needle hay : string) : bool :=
  String.prefix needle hay ||
  match hay with
  | EmptyString => false
  | String _ hay' => contains needle hay'
  end.

(** Python's [sep.join(l)]. *)
Fixpoint join (sep : string) (l : list string) : string :=
  match l with
  | [] => ""
  | [x] => x
  | x :: rest => x +:+ sep +:+ join sep rest
  end.

(** Python's [s.split("/")], with [cur] the (reversed) component being read. *)
Fixpoint split_slash_aux (cur : string) (s : string) : list string :=
  match s with
  | EmptyString => [String.rev cur]
  | String c s' =>
      if Ascii.eqb c "/"%char then String.rev cur :: split_slash_aux "" s'
      else split_slash_aux (String c cur) s'
  end.

Definition split_slash (s : string) : list string := split_slash_aux "" s.

Fixpoint zeros (n : nat) : string :=
  match n with
  | O => ""
  | S n' => String "0"%char (zeros n')
  end.

(** The decimal digits of a non-negative number, padded with zeros on the
    left to [n] characters. *)
Definition zfill (n : nat) (z : Z) : string :=
  let s := pretty z in zeros (n - String.length s) +:+ s.

(** ** [datetime]: naive datetimes, compared field by field *)

Module Datetime.

Record datetime := mk_datetime {
  year : Z; month : Z; day : Z;
  hour : Z; minute : Z; second : Z; microsecond : Z
}.

Definition fields (d : datetime) : list Z :=
  [year d; month d; day d; hour d; minute d; second d; microsecond d].

Fixpoint lex_ltb (a b : list Z) : bool :=
  match a, b with
  | x :: a', y :: b' => (x <? y) || ((x =? y) && lex_ltb a' b')
  | _, _ => false
  end.

(** [d1 < d2] on datetimes. *)
Definition ltb (d1 d2 : datetime) : bool := lex_ltb (fields d1) (fields d2).

(** [str(d)]: ISO format with a space separator; the fraction is printed
    only when the microsecond field is not zero. *)
Definition str (d : datetime) : string :=
  zfill 4 (year d) +:+ "-" +:+ zfill 2 (month d) +:+ "-" +:+ zfill 2 (day d)
  +:+ " " +:+ zfill 2 (hour d) +:+ ":" +:+ zfill 2 (minute d) +:+ ":"
  +:+ zfill 2 (second d)
  +:+ (if microsecond d =? 0 then "" else "." +:+ zfill 6 (microsecond d)).

End Datetime.

Abbreviation datetime := Datetime.datetime.

(** ** [pathlib.Path] on a POSIX system *)

Module Pathlib.

(** A parsed path: the root (one of the empty string, ["/"] and ["//"]) and
    the components after it. *)
Record Path := mk_Path { root : string; tail : list string }.

(** [posixpath.splitroot], without the drive: the root and what follows it.
    Exactly two leading slashes are kept as a root of their own; three or
    more count as one. *)
Definition splitroot (p : string) : string * string :=
  match p with
  | String "/" ((String "/" (String "/" _)) as r) => ("/", r)
  | String "/" (String "/" r) => ("//", r)
  | String "/" r => ("/", r)
  | _ => ("", p)
  end.

(** [Path(path_input)]: empty components and ["."] are dropped. *)
Definition parse (path_input : string) : Path :=
  let '(rt, rel) := splitroot path_input in
  {| root := rt;
     tail := filter (λ x, x ≠ "" ∧ x ≠ ".") (split_slash rel) |}.

(** [str(path)] *)
Definition str (p : Path) : string :=
  match root p, tail p with
  | EmptyString, [] => "."
  | rt, tl => rt +:+ join "/" tl
  end.

(** [path.name]: the final component, if any. *)
Definition name (p : Path) : string := List.last (tail p) "".

End Pathlib.

Abbreviation Path := Pathlib.Path.

(** ** Values stored in the attribute maps *)

Inductive value :=
| VNone
| VBool (b : bool)
| VInt (z : Z)
| VStr (s : string)
| VDatetime (d : datetime)
| VPath (p : Path).

(** Python's [str(v)]. *)
Definition str_value (v : value) : string :=
  match v with
  | VNone => "None"
  | VBool true => "True"
  | VBool false => "False"
  | VInt z => pretty z
  | VStr s => s
  | VDatetime d => Datetime.str d
  | VPath p => Pathlib.str p
  end.

(** The [info] dictionaries: string keys, arbitrary values. *)
Abbreviation dict := (gmap string value).

(** [d.update(other)]: the keys of [other] win. *)
Definition dict_update (d other : dict) : dict := other ∪ d.

(** ** The filesystem as the validators observe it *)

Inductive file_kind := RegularFile | Directory | OtherKind.

Global Instance file_kind_eq_dec : EqDecision file_kind.
Proof. solve_decision. Defined.

(** What [os.stat] reports for a path, timestamps already converted by
    [datetime.fromtimestamp]. [st_birthtime] is absent on platforms that do
    not record a birth time. *)
Record stat_result := mk_stat {
  st_kind : file_kind;
  st_birthtime : option datetime;
  st_ctime : datetime;
  st_mtime : datetime;
  st_size : Z
}.

(** A snapshot maps the string of a path to what [stat] finds there. *)
Abbreviation FS := (gmap string stat_result).

(** The filesystem may change while a validator runs: the [k]-th operation of
    a run observes the snapshot [w k]. *)
Definition Timeline := nat → FS.

Definition static (fs : FS) : Timeline := λ _, fs.

(** ** Operations, exceptions and the monad of the validators *)

Inductive op :=
| OpExists (p : string)
| OpIsFile (p : string)
| OpIsDir (p : string)
| OpStat (p : string)
| OpSearch (pattern : string) (subject : string)
| OpValidate (index : nat) (path_input : string).

(** [FileNotFoundError] is the [OSError] whose error number is [ENOENT];
    [OSError errno filename] stands for one with another error number. *)
Inductive exn :=
| FileNotFoundError (p : string)
| OSError (errno : Z) (filename : string).

Inductive result (A : Type) :=
| Ret (a : A)
| Raise (e : exn).
Arguments Ret {A} a.
Arguments Raise {A} e.

(** A computation reads the timeline and appends to the log of operations
    performed so far; the length of the log is the current instant. *)
Definition M (A : Type) : Type := Timeline → list op → result A * list op.

Definition ret {A} (a : A) : M A := λ _ l, (Ret a, l).

Definition bind {A B} (m : M A) (k : A → M B) : M B :=
  λ w l,
    match m w l with
    | (Ret a, l') => k a w l'
    | (Raise e, l') => (Raise e, l')
    end.

Declare Scope vmonad_scope.
Delimit Scope vmonad_scope with vmonad.
Notation "x <- c1 ;; c2" := (bind c1 (λ x, c2))
  (at level 100, c1 at next level, right associativity) : vmonad_scope.
Notation "c1 ;; c2" := (bind c1 (λ _, c2))
  (at level 100, right associativity) : vmonad_scope.
Local Open Scope vmonad_scope.

(** [record o]: note that operation [o] took place. *)
Definition record (o : op) : M unit := λ _ l, (Ret tt, l ++ [o]).

(** [observe o f]: perform operation [o] against the current snapshot. *)
Definition observe {A} (o : op) (f : FS → result A) : M A :=
  λ w l, (f (w (List.length l)), l ++ [o]).

(** [path.exists()], a lookup that finds nothing being taken for absence;
    module [Errno] below has the error numbers [os.stat] reports. *)
Definition path_exists (p : Path) : M bool :=
  observe (OpExists (Pathlib.str p))
    (λ fs, Ret (bool_decide (is_Some (fs !! Pathlib.str p)))).

(** [path.is_file()] *)
Definition path_is_file (p : Path) : M bool :=
  observe (OpIsFile (Pathlib.str p))
    (λ fs, Ret (match fs !! Pathlib.str p with
                | Some st => bool_decide (st_kind st = RegularFile)
                | None => false
                end)).

(** [path.is_dir()] *)
Definition path_is_dir (p : Path) : M bool :=
  observe (OpIsDir (Pathlib.str p))
    (λ fs, Ret (match fs !! Pathlib.str p with
                | Some st => bool_decide (st_kind st = Directory)
                | None => false
                end)).

(** [path.stat()] raises when nothing is there any more. *)
Definition path_stat (p : Path) : M stat_result :=
  observe (OpStat (Pathlib.str p))
    (λ fs, match fs !! Pathlib.str p with
           | Some st => Ret st
           | None => Raise (FileNotFoundError (Pathlib.str p))
           end).

(** A compiled regular expression: its source text and its [search]. *)
Record Pattern := mk_Pattern {
  pattern : string;
  search : string → bool
}.

(** [pat.search(subject)], as a truth value. *)
Definition pattern_search (pat : Pattern) (subject : string) : M bool :=
  record (OpSearch (pattern pat) subject) ;;
  ret (search pat subject).

(** ** asynchronous/validator.py *)

(** The instance attributes set by [BaseValidator.__init__]. The constructor
    stores [re.compile(name_pattern)] when a non-empty pattern is given and
    [None] otherwise. *)
Record BaseValidatorConfig := mk_BaseValidator {
  name_pattern : option Pattern;
  creation_date_min : option datetime;
  creation_date_max : option datetime;
  modified_date_min : option datetime;
  modified_date_max : option datetime
}.

Record FileValidatorConfig := mk_FileValidator {
  base : BaseValidatorConfig;
  filesize_min : option Z;
  filesize_max : option Z
}.

#[global] Arguments Pathlib.str : simpl never.
#[global] Arguments Pathlib.name : simpl never.
#[global] Arguments Datetime.str : simpl never.
#[global] Arguments Datetime.ltb : simpl never.

(** The dictionary of a rejection: [{"error": msg}]. *)
Definition error_info (msg : string) : dict := {[ "error" := VStr msg ]}.

Definition msg_not_exist (path : Path) : string :=
  "Path '" +:+ Pathlib.str path +:+ "' does not exist.".
Definition msg_not_file (path : Path) : string :=
  "Path '" +:+ Pathlib.str path +:+ "' is not a file.".
Definition msg_not_folder (path : Path) : string :=
  "Path '" +:+ Pathlib.str path +:+ "' is not a folder.".
Definition msg_name (path : Path) (pat : Pattern) : string :=
  "Name '" +:+ Pathlib.name path +:+ "' does not match pattern '"
  +:+ pattern pat +:+ "'.".
Definition msg_creation_before (t lo : datetime) : string :=
  "Creation time " +:+ Datetime.str t +:+ " is before minimum allowed "
  +:+ Datetime.str lo +:+ ".".
Definition msg_creation_after (t hi : datetime) : string :=
  "Creation time " +:+ Datetime.str t +:+ " is after maximum allowed "
  +:+ Datetime.str hi +:+ ".".
Definition msg_modified_before (t lo : datetime) : string :=
  "Modified time " +:+ Datetime.str t +:+ " is before minimum allowed "
  +:+ Datetime.str lo +:+ ".".
Definition msg_modified_after (t hi : datetime) : string :=
  "Modified time " +:+ Datetime.str t +:+ " is after maximum allowed "
  +:+ Datetime.str hi +:+ ".".
Definition msg_size_less (filesize lo : Z) : string :=
  "Filesize " +:+ pretty filesize +:+ " is less than minimum allowed "
  +:+ pretty lo +:+ ".".
Definition msg_size_greater (filesize hi : Z) : string :=
  "Filesize " +:+ pretty filesize +:+ " is greater than maximum allowed "
  +:+ pretty hi +:+ ".".

#[global] Arguments msg_not_exist : simpl never.
#[global] Arguments msg_not_file : simpl never.
#[global] Arguments msg_not_folder : simpl never.
#[global] Arguments msg_name : simpl never.
#[global] Arguments msg_creation_before : simpl never.
#[global] Arguments msg_creation_after : simpl never.
#[global] Arguments msg_modified_before : simpl never.
#[global] Arguments msg_modified_after : simpl never.
#[global] Arguments msg_size_less : simpl never.
#[global] Arguments msg_size_greater : simpl never.

(** One statement [if bound and test(bound): return False, {"error": msg}]:
    the message when the early return is taken. Datetimes are always truthy,
    and the size bounds are tested with [is not None], so a bound constrains
    exactly when it is present. *)
Definition violated {B} (bound : option B) (test : B → bool) (msg : B → string)
  : option string :=
  match bound with
  | Some b => if test b then Some (msg b) else None
  | None => None
  end.

(** [return False, {"error": msg}] when the guard fires, else go on. *)
Definition unless (guard : option string) (k : M (bool * dict)) : M (bool * dict) :=
  match guard with
  | Some msg => ret (false, error_info msg)
  | None => k
  end.

(** [BaseValidator.get_creation_time] *)
Definition get_creation_time (path : Path) : M datetime :=
  stat_result <- path_stat path ;;
  ret (default (st_ctime stat_result) (st_birthtime stat_result)).

(** [BaseValidator.validate_common] *)
Definition validate_common (self : BaseValidatorConfig) (path : Path)
  : M (bool * dict) :=
  let dates (info : dict) : M (bool * dict) :=
    creation_time <- get_creation_time path ;;
    let info := <["creation_time" := VDatetime creation_time]> info in
    unless (violated (creation_date_min self)
              (λ lo, Datetime.ltb creation_time lo)
              (msg_creation_before creation_time)) (
    unless (violated (creation_date_max self)
              (λ hi, Datetime.ltb hi creation_time)
              (msg_creation_after creation_time)) (
    st <- path_stat path ;;
    let modified_time := st_mtime st in
    let info := <["modified_time" := VDatetime modified_time]> info in
    unless (violated (modified_date_min self)
              (λ lo, Datetime.ltb modified_time lo)
              (msg_modified_before modified_time)) (
    unless (violated (modified_date_max self)
              (λ hi, Datetime.ltb hi modified_time)
              (msg_modified_after modified_time)) (
    ret (true, info)))))
  in
  match name_pattern self with
  | Some pat =>
      found <- pattern_search pat (Pathlib.name path) ;;
      if negb found then ret (false, error_info (msg_name path pat))
      else dates (<["name_valid" := VBool true]> ∅)
  | None => dates ∅
  end.

(** [FileValidator.validate] *)
Definition FileValidator_validate (self : FileValidatorConfig) (path_input : string)
  : M (bool * dict) :=
  let path := Pathlib.parse path_input in
  let info : dict := ∅ in
  present <- path_exists path ;;
  if negb present then ret (false, error_info (msg_not_exist path)) else
  is_file <- path_is_file path ;;
  if negb is_file then ret (false, error_info (msg_not_file path)) else
  common <- validate_common (base self) path ;;
  if negb (fst common) then ret (false, snd common) else
  let info := dict_update info (snd common) in
  st <- path_stat path ;;
  let filesize := st_size st in
  let info := <["filesize" := VInt filesize]> info in
  unless (violated (filesize_min self) (λ lo, filesize <? lo)
            (msg_size_less filesize)) (
  unless (violated (filesize_max self) (λ hi, hi <? filesize)
            (msg_size_greater filesize)) (
  ret (true, info))).

(** [FolderValidator.validate] *)
Definition FolderValidator_validate (self : BaseValidatorConfig) (path_input : string)
  : M (bool * dict) :=
  let path := Pathlib.parse path_input in
  let info : dict := ∅ in
  present <- path_exists path ;;
  if negb present then ret (false, error_info (msg_not_exist path)) else
  is_dir <- path_is_dir path ;;
  if negb is_dir then ret (false, error_info (msg_not_folder path)) else
  common <- validate_common self path ;;
  if negb (fst common) then ret (false, snd common) else
  let info := dict_update info (snd common) in
  ret (true, info).

(** A validator is any object with a [validate(path_input)] method returning
    a pair of a flag and a dictionary: the three classes of the module, or
    any other such object ([OtherValidator], given by its method). *)
#[local] Unset Elimination Schemes.
Inductive Validator :=
| FileValidator (self : FileValidatorConfig)
| FolderValidator (self : BaseValidatorConfig)
| CompositeValidator (validators : list Validator)
| OtherValidator (method : string → M (bool * dict)).
#[local] Set Elimination Schemes.

(** The loop of [CompositeValidator.validate], over the validators that are
    left, with [index] the position of the next one and [combined_info] the
    dictionary merged so far. Every call of a member's [validate] is
    recorded in the log as [OpValidate index path_input]. *)
Definition composite_loop (call : Validator → string → M (bool * dict))
    (path_input : string)
  : list Validator → nat → dict → M (bool * dict) :=
  fix loop validators index combined_info :=
    match validators with
    | [] => ret (true, combined_info)
    | validator :: rest =>
        record (OpValidate index path_input) ;;
        r <- call validator path_input ;;
        if negb (fst r) then ret (false, snd r)
        else loop rest (S index) (dict_update combined_info (snd r))
    end.

(** [validator.validate(path_input)], dispatched on the class. *)
Fixpoint validate (v : Validator) (path_input : string) : M (bool * dict) :=
  match v with
  | FileValidator self => FileValidator_validate self path_input
  | FolderValidator self => FolderValidator_validate self path_input
  | CompositeValidator validators =>
      composite_loop validate path_input validators 0%nat ∅
  | OtherValidator method => method path_input
  end.

(** [CompositeValidator(validators).validate] *)
Definition CompositeValidator_validate (validators : list Validator)
    (path_input : string) : M (bool * dict) :=
  validate (CompositeValidator validators) path_input.

(** *** The same methods when a lookup fails for another reason than absence

    The definitions above take every lookup that finds nothing for plain
    absence. [os.stat] gives the reason as an error number, and [pathlib]
    (before Python 3.14) takes only four of them for absence: on [ENOENT],
    [ENOTDIR], [EBADF] and [ELOOP] the methods [exists], [is_file] and
    [is_dir] answer [False], and they let every other [OSError] through.
    This module embeds the methods of [FileValidator] and [FolderValidator]
    once more with the error number made explicit. A snapshot still holds
    what exists, and every path that exists can be looked up; [failure k p]
    is the error number with which the lookup of [p] fails at instant [k]
    when nothing exists at [p]. Paths that cannot be encoded, for which
    [os.stat] raises [ValueError], are left out. *)
Module Errno.

(** The error numbers of [errno], with their values on Linux. *)
Definition ENOENT : Z := 2.
Definition EBADF : Z := 9.
Definition EACCES : Z := 13.
Definition ENOTDIR : Z := 20.
Definition ENAMETOOLONG : Z := 36.
Definition ELOOP : Z := 40.

(** [pathlib._IGNORED_ERRNOS] *)
Definition _IGNORED_ERRNOS : list Z := [ENOENT; ENOTDIR; EBADF; ELOOP].

(** [pathlib._ignore_error], on a POSIX system (no [winerror]). *)
Definition _ignore_error (errno : Z) : bool :=
  bool_decide (errno ∈ _IGNORED_ERRNOS).

(** The exception [os.stat] raises for an error number. *)
Definition os_error (errno : Z) (filename : string) : exn :=
  if bool_decide (errno = ENOENT) then FileNotFoundError filename
  else OSError errno filename.

Section Lookups.

Variable failure : nat → string → Z.

(** One [os.stat] of the path against the current snapshot, recorded as
    operation [o]: [found] on what is there, [failed] on the error number. *)
Definition lookup {A} (o : op) (p : Path) (found : stat_result → result A)
    (failed : Z → result A) : M A :=
  λ w l,
    (match w (List.length l) !! Pathlib.str p with
     | Some st => found st
     | None => failed (failure (List.length l) (Pathlib.str p))
     end, l ++ [o]).

(** [except OSError as e: if not _ignore_error(e): raise; return False] *)
Definition absent_or_raise (p : Path) (errno : Z) : result bool :=
  if _ignore_error errno then Ret false
  else Raise (os_error errno (Pathlib.str p)).

(** [path.exists()] *)
Definition path_exists (p : Path) : M bool :=
  lookup (OpExists (Pathlib.str p)) p (λ _, Ret true) (absent_or_raise p).

(** [path.is_file()] *)
Definition path_is_file (p : Path) : M bool :=
  lookup (OpIsFile (Pathlib.str p)) p
    (λ st, Ret (bool_decide (st_kind st = RegularFile))) (absent_or_raise p).

(** [path.is_dir()] *)
Definition path_is_dir (p : Path) : M bool :=
  lookup (OpIsDir (Pathlib.str p)) p
    (λ st, Ret (bool_decide (st_kind st = Directory))) (absent_or_raise p).

(** [path.stat()] *)
Definition path_stat (p : Path) : M stat_result :=
  lookup (OpStat (Pathlib.str p)) p Ret
    (λ errno, Raise (os_error errno (Pathlib.str p))).

(** [BaseValidator.get_creation_time] *)
Definition get_creation_time (path : Path) : M datetime :=
  stat_result <- path_stat path ;;
  ret (default (st_ctime stat_result) (st_birthtime stat_result)).

(** [BaseValidator.validate_common] *)
Definition validate_common (self : BaseValidatorConfig) (path : Path)
  : M (bool * dict) :=
  let dates (info : dict) : M (bool * dict) :=
    creation_time <- get_creation_time path ;;
    let info := <["creation_time" := VDatetime creation_time]> info in
    unless (violated (creation_date_min self)
              (λ lo, Datetime.ltb creation_time lo)
              (msg_creation_before creation_time)) (
    unless (violated (creation_date_max self)
              (λ hi, Datetime.ltb hi creation_time)
              (msg_creation_after creation_time)) (
    st <- path_stat path ;;
    let modified_time := st_mtime st in
    let info := <["modified_time" := VDatetime modified_time]> info in
    unless (violated (modified_date_min self)
              (λ lo, Datetime.ltb modified_time lo)
              (msg_modified_before modified_time)) (
    unless (violated (modified_date_max self)
              (λ hi, Datetime.ltb hi modified_time)
              (msg_modified_after modified_time)) (
    ret (true, info)))))
  in
  match name_pattern self with
  | Some pat =>
      found <- pattern_search pat (Pathlib.name path) ;;
      if negb found then ret (false, error_info (msg_name path pat))
      else dates (<["name_valid" := VBool true]> ∅)
  | None => dates ∅
  end.

(** [FileValidator.validate] *)
Definition FileValidator_validate (self : FileValidatorConfig) (path_input : string)
  : M (bool * dict) :=
  let path := Pathlib.parse path_input in
  let info : dict := ∅ in
  present <- path_exists path ;;
  if negb present then ret (false, error_info (msg_not_exist path)) else
  is_file <- path_is_file path ;;
  if negb is_file then ret (false, error_info (msg_not_file path)) else
  common <- validate_common (base self) path ;;
  if negb (fst common) then ret (false, snd common) else
  let info := dict_update info (snd common) in
  st <- path_stat path ;;
  let filesize := st_size st in
  let info := <["filesize" := VInt filesize]> info in
  unless (violated (filesize_min self) (λ lo, filesize <? lo)
            (msg_size_less filesize)) (
  unless (violated (filesize_max self) (λ hi, hi <? filesize)
            (msg_size_greater filesize)) (
  ret (true, info))).

(** [FolderValidator.validate] *)
Definition FolderValidator_validate (self : BaseValidatorConfig) (path_input : string)
  : M (bool * dict) :=
  let path := Pathlib.parse path_input in
  let info : dict := ∅ in
  present <- path_exists path ;;
  if negb present then ret (false, error_info (msg_not_exist path)) else
  is_dir <- path_is_dir path ;;
  if negb is_dir then ret (false, error_info (msg_not_folder path)) else
  common <- validate_common self path ;;
  if negb (fst common) then ret (false, snd common) else
  let info := dict_update info (snd common) in
  ret (true, info).

End Lookups.

(** Along [w], every lookup of [p] that finds nothing fails with [ENOENT]. *)
Definition plain (failure : nat → string → Z) (w : Timeline) (p : string) : Prop :=
  ∀ k, w k !! p = None → failure k p = ENOENT.

End Errno.

(** ** asynchronous/processor.py *)

(** The part of a watchdog event the pipeline reads. *)
Record Event := mk_Event {
  src_path : string;
  is_directory : bool
}.

Global Instance Event_eq_dec : EqDecision Event.
Proof. solve_decision. Defined.

(** Calls made on the two queues and on the scheduler, in program order. *)
Inductive queue_call :=
| QGet (event : Event)
| QTaskDone
| QSleep (delay : Z)
| QPut (item : string).

Global Instance queue_call_eq_dec : EqDecision queue_call.
Proof. solve_decision. Defined.

(** The configuration of an [EventProcessor]. An instance of a validator
    class is truthy, so [if self.validator] tests for presence. The delay is
    read for its truthiness and handed to [asyncio.sleep]. *)
Record EventProcessor := mk_EventProcessor {
  validator : option Validator;
  process_delay : Z
}.

(** The mutable state the loop works on: the events waiting in
    [self.event_queue], the items of [self.buffer] ([None] when no buffer is
    configured; the queue is unbounded, as [asyncio.Queue()] builds it), the
    log of the validators' operations and the calls issued so far. *)
Record State := mk_State {
  event_queue : list Event;
  buffer : option (list string);
  fs_log : list op;
  calls : list queue_call
}.

Definition set_fs_log (l : list op) (st : State) : State :=
  {| event_queue := event_queue st; buffer := buffer st;
     fs_log := l; calls := calls st |}.

Definition call (c : queue_call) (st : State) : State :=
  {| event_queue := event_queue st; buffer := buffer st;
     fs_log := fs_log st; calls := calls st ++ [c] |}.

(** [self.event_queue.task_done()] *)
Definition task_done (st : State) : State := call QTaskDone st.

(** [await asyncio.sleep(delay)] *)
Definition sleep (delay : Z) (st : State) : State := call (QSleep delay) st.

(** [await self.buffer.put(item)] *)
Definition buffer_put (item : string) (st : State) : State :=
  {| event_queue := event_queue st;
     buffer := (λ items, items ++ [item]) <$> buffer st;
     fs_log := fs_log st; calls := calls st ++ [QPut item] |}.

(** The body of the [while True] loop of [process_events], after [event] has
    been taken from the queue. [Ret tt] is the end of the iteration, by
    [continue] or by reaching the last statement; the logging calls are left
    out. *)
Definition iteration (self : EventProcessor) (event : Event) (w : Timeline)
    (st : State) : result unit * State :=
  let validated : result (option dict) * State :=
    match validator self with
    | Some v =>
        match validate v (src_path event) w (fs_log st) with
        | (Ret (valid, info), l) =>
            if negb valid then (Ret None, task_done (set_fs_log l st))
            else (Ret (Some info), set_fs_log l st)
        | (Raise e, l) => (Raise e, set_fs_log l st)
        end
    | None => (Ret (Some ∅), st)
    end in
  match validated with
  | (Raise e, st) => (Raise e, st)
  | (Ret None, st) => (Ret tt, st)
  | (Ret (Some info), st) =>
      let st := if bool_decide (process_delay self ≠ 0)
                then sleep (process_delay self) st else st in
      match buffer st with
      | None => (Ret tt, task_done st)
      | Some _ =>
          let folder_name := default (VStr (src_path event)) (info !! "new_folder") in
          (Ret tt, task_done (buffer_put (str_value folder_name) st))
      end
  end.

(** [event = await self.event_queue.get()] on a non-empty queue. *)
Definition dequeue (event : Event) (rest : list Event) (st : State) : State :=
  {| event_queue := rest; buffer := buffer st;
     fs_log := fs_log st; calls := calls st ++ [QGet event] |}.

(** One turn of the loop; [None] when the queue is empty and [get] suspends. *)
Definition step (self : EventProcessor) (w : Timeline) (st : State)
  : option (result unit * State) :=
  match event_queue st with
  | [] => None
  | event :: rest => Some (iteration self event w (dequeue event rest st))
  end.

Inductive loop_outcome :=
| Suspended (st : State)
| Raised (e : exn) (st : State)
| Running (st : State).

(** [EventProcessor.process_events], for at most [fuel] turns. *)
Fixpoint process_events (fuel : nat) (self : EventProcessor) (w : Timeline)
    (st : State) : loop_outcome :=
  match fuel with
  | O => Running st
  | S fuel' =>
      match step self w st with
      | None => Suspended st
      | Some (Ret _, st') => process_events fuel' self w st'
      | Some (Raise e, st') => Raised e st'
      end
  end.

(** ** synchronous/event_handler.py *)

Module Synchronous.

Inductive io_error := OSError | UnicodeDecodeError.

Inductive io (A : Type) :=
| Ok (a : A)
| Err (e : io_error).
Arguments Ok {A} a.
Arguments Err {A} e.

(** What the handler's environment answers. Times are in clock ticks.
    [clock 0] is the reading taken for [start_time]; the [n]-th test of the
    [while] condition ([n] from 1) reads [clock n] and, when it passes, the
    call of [os.listdir] that follows returns [listdir n path]: the names in
    the directory, each with what opening and reading that file gives. *)
Record World := mk_World {
  clock : nat → Z;
  path_exists : string → bool;
  listdir : nat → string → io (list (string * io string))
}.

(** The attribute of a handler that [validate] reads. *)
Record EventHandler := mk_EventHandler {
  validation_timeout : Z
}.

Inductive outcome :=
| Returned (b : bool)
| Raised (e : io_error)
| Polling.

(** The outcome of a call, with the elapsed time read by each test of the
    loop condition that let a listing pass start. *)
Record run := mk_run {
  outcome_of : outcome;
  passes : list Z
}.

(** [timeout or self.validation_timeout] *)
Definition timeout_or_default (self : EventHandler) (timeout : option Z) : Z :=
  match timeout with
  | Some t => if bool_decide (t ≠ 0) then t else validation_timeout self
  | None => validation_timeout self
  end.

(** The [for file in os.listdir(...)] loop over one listing: [Ok true] when
    it returns [True], [Ok false] when it runs to its end. An [OSError]
    from opening or reading is caught and the loop goes on; any other
    error leaves the function. *)
Fixpoint scan (entries : list (string * io string)) : io bool :=
  match entries with
  | [] => Ok false
  | (file, content) :: rest =>
      if String.eqb file "ShotLog.json" then
        match content with
        | Ok text => if bool_decide (text ≠ "") then Ok true else scan rest
        | Err OSError => scan rest
        | Err e => Err e
        end
      else scan rest
  end.

(** The body of the [while] loop at its [n]-th turn. *)
Definition listing_pass (w : World) (n : nat) (path : string) : io bool :=
  match listdir w n path with
  | Ok entries => scan entries
  | Err e => Err e
  end.

(** The [while time.time() - start_time < timeout: ... else: return False]
    loop from its [n]-th test on, for at most [fuel] tests. *)
Fixpoint poll (fuel : nat) (w : World) (path : string) (start_time timeout : Z)
    (n : nat) (seen : list Z) : run :=
  match fuel with
  | O => mk_run Polling seen
  | S fuel' =>
      let elapsed := clock w n - start_time in
      if elapsed <? timeout then
        match listing_pass w n path with
        | Ok true => mk_run (Returned true) (seen ++ [elapsed])
        | Ok false => poll fuel' w path start_time timeout (S n) (seen ++ [elapsed])
        | Err e => mk_run (Raised e) (seen ++ [elapsed])
        end
      else mk_run (Returned false) seen
  end.

(** [TestDataEventHandler.validate] *)
Definition TestDataEventHandler_validate (self : EventHandler) (event : Event)
    (timeout : option Z) (fuel : nat) (w : World) : run :=
  let timeout := timeout_or_default self timeout in
  let start_time := clock w 0 in
  if negb (is_directory event) then mk_run (Returned false) []
  else if negb (path_exists w (src_path event)) then mk_run (Returned false) []
  else poll fuel w (src_path event) start_time timeout 1 [].

(** [LastShotEventHandler.validate]: the same statements. *)
Definition LastShotEventHandler_validate (self : EventHandler) (event : Event)
    (timeout : option Z) (fuel : nat) (w : World) : run :=
  let timeout := timeout_or_default self timeout in
  let start_time := clock w 0 in
  if negb (is_directory event) then mk_run (Returned false) []
  else if negb (path_exists w (src_path event)) then mk_run (Returned false) []
  else poll fuel w (src_path event) start_time timeout 1 [].

(** The two handler classes whose [validate] lists the directory. *)
Inductive handler_class := TestDataEventHandler | LastShotEventHandler.

Definition validate (cls : handler_class) :=
  match cls with
  | TestDataEventHandler => TestDataEventHandler_validate
  | LastShotEventHandler => LastShotEventHandler_validate
  end.

End Synchronous.

(** * Notions used in the statements *)

(** Acceptance of a run: it returns, and the flag is true. *)
Definition accepted (r : result (bool * dict) * list op) : Prop :=
  ∃ info, r.1 = Ret (true, info).

(** ** The checks of [FileValidator], as the specification lists them *)

Inductive check :=
| CheckExists
| CheckIsFile
| CheckName
| CheckCreationMin
| CheckCreationMax
| CheckModifiedMin
| CheckModifiedMax
| CheckSizeMin
| CheckSizeMax.

(** Existence and type first, then the common checks (name, creation time
    range, modification time range), then the size range. *)
Definition file_checks : list check :=
  [CheckExists; CheckIsFile; CheckName;
   CheckCreationMin; CheckCreationMax;
   CheckModifiedMin; CheckModifiedMax;
   CheckSizeMin; CheckSizeMax].

(** The creation time of a file: its birth time where the platform has one,
    its change time otherwise. *)
Definition creation_time_of (st : stat_result) : datetime :=
  default (st_ctime st) (st_birthtime st).

(** Whether a check fails on the snapshot [fs], and with which reason. The
    name is searched in the last component of the path. An absent bound or
    pattern never fails. *)
Definition check_failure (self : FileValidatorConfig) (fs : FS) (path : Path)
    (c : check) : option string :=
  let found := fs !! Pathlib.str path in
  match c with
  | CheckExists =>
      match found with
      | Some _ => None
      | None => Some (msg_not_exist path)
      end
  | CheckIsFile =>
      match found with
      | Some st => if decide (st_kind st = RegularFile) then None
                   else Some (msg_not_file path)
      | None => Some (msg_not_file path)
      end
  | CheckName =>
      pat ← name_pattern (base self);
      if search pat (Pathlib.name path) then None else Some (msg_name path pat)
  | CheckCreationMin =>
      st ← found; lo ← creation_date_min (base self);
      if Datetime.ltb (creation_time_of st) lo
      then Some (msg_creation_before (creation_time_of st) lo) else None
  | CheckCreationMax =>
      st ← found; hi ← creation_date_max (base self);
      if Datetime.ltb hi (creation_time_of st)
      then Some (msg_creation_after (creation_time_of st) hi) else None
  | CheckModifiedMin =>
      st ← found; lo ← modified_date_min (base self);
      if Datetime.ltb (st_mtime st) lo
      then Some (msg_modified_before (st_mtime st) lo) else None
  | CheckModifiedMax =>
      st ← found; hi ← modified_date_max (base self);
      if Datetime.ltb hi (st_mtime st)
      then Some (msg_modified_after (st_mtime st) hi) else None
  | CheckSizeMin =>
      st ← found; lo ← filesize_min self;
      if st_size st <? lo then Some (msg_size_less (st_size st) lo) else None
  | CheckSizeMax =>
      st ← found; hi ← filesize_max self;
      if hi <? st_size st then Some (msg_size_greater (st_size st) hi) else None
  end.

(** The operations a check costs: one per question asked of the filesystem
    or of the pattern. The file is stated once for the creation time, once
    for the modification time and once for the size; the maximum of a range
    reuses the value read for its minimum. *)
Definition check_ops (self : FileValidatorConfig) (path : Path) (c : check)
  : list op :=
  match c with
  | CheckExists => [OpExists (Pathlib.str path)]
  | CheckIsFile => [OpIsFile (Pathlib.str path)]
  | CheckName =>
      match name_pattern (base self) with
      | Some pat => [OpSearch (pattern pat) (Pathlib.name path)]
      | None => []
      end
  | CheckCreationMin | CheckModifiedMin | CheckSizeMin => [OpStat (Pathlib.str path)]
  | CheckCreationMax | CheckModifiedMax | CheckSizeMax => []
  end.

(** Run the checks in order and stop at the first that fails: its reason,
    and the operations performed up to and including it; no reason when all
    pass. *)
Fixpoint first_failure (self : FileValidatorConfig) (fs : FS) (path : Path)
    (checks : list check) (l : list op) : option string * list op :=
  match checks with
  | [] => (None, l)
  | c :: rest =>
      match check_failure self fs path c with
      | Some reason => (Some reason, l ++ check_ops self path c)
      | None => first_failure self fs path rest (l ++ check_ops self path c)
      end
  end.

(** The attributes [validate_common] collects when its checks pass. *)
Definition common_info (self : FileValidatorConfig) (st : stat_result) : dict :=
  <["modified_time" := VDatetime (st_mtime st)]>
    (<["creation_time" := VDatetime (creation_time_of st)]>
       (match name_pattern (base self) with
        | Some _ => {[ "name_valid" := VBool true ]}
        | None => ∅
        end)).

(** The attributes of an accepted file. *)
Definition file_info (self : FileValidatorConfig) (fs : FS) (path : Path) : dict :=
  match fs !! Pathlib.str path with
  | Some st => <["filesize" := VInt (st_size st)]> (common_info self st)
  | None => ∅
  end.

(** The checks made by [validate_common], and all those made before the
    size of a file is looked at. *)
Definition common_checks : list check :=
  [CheckName; CheckCreationMin; CheckCreationMax;
   CheckModifiedMin; CheckModifiedMax].

Definition checks_before_size : list check :=
  [CheckExists; CheckIsFile] ++ common_checks.

(** A run rejected with a reason that contains [phrase]. *)
Definition rejected_with (phrase : string)
    (r : result (bool * dict) * list op) : Prop :=
  ∃ reason, r.1 = Ret (false, error_info reason) ∧ contains phrase reason = true.

(** [st] is what is found at the path, and every check before the size check
    passes. *)
Definition size_check_reached (self : FileValidatorConfig) (fs : FS)
    (path_input : string) (st : stat_result) : Prop :=
  fs !! Pathlib.str (Pathlib.parse path_input) = Some st
  ∧ ∀ c, c ∈ checks_before_size →
         check_failure self fs (Pathlib.parse path_input) c = None.

(** The size-range property read literally: with both bounds configured, a
    size below the minimum is rejected as less than the minimum, a size above
    the maximum is rejected as greater than the maximum, and a size within
    the bounds is accepted. *)
Definition size_range_as_stated : Prop :=
  ∀ (self : FileValidatorConfig) (path_input : string) (fs : FS) (l : list op)
    (st : stat_result) (lo hi : Z),
    size_check_reached self fs path_input st →
    filesize_min self = Some lo →
    filesize_max self = Some hi →
    let r := FileValidator_validate self path_input (static fs) l in
    (st_size st < lo → rejected_with "less than minimum" r)
    ∧ (hi < st_size st → rejected_with "greater than maximum" r)
    ∧ (lo ≤ st_size st ≤ hi → accepted r).

(** ** Sample inputs *)

Definition sample_time : datetime := Datetime.mk_datetime 2024 1 5 10 20 30 0.

Definition sample_stat (kind : file_kind) (size : Z) : stat_result :=
  mk_stat kind None sample_time sample_time size.

(** A literal pattern: [re.compile("report")] searches for the substring. *)
Definition report_pattern : Pattern := mk_Pattern "report" (contains "report").

Definition report_validator (lo hi : Z) : FileValidatorConfig :=
  mk_FileValidator (mk_BaseValidator (Some report_pattern) None None None None)
    (Some lo) (Some hi).

Definition sample_fs (size : Z) : FS :=
  {[ "/data/report.txt" := sample_stat RegularFile size ]}.

(** Two validators of another class, returning fixed maps that share the key
    ["k"]; the second also names a replacement path. *)
Definition first_info : dict := {[ "k" := VInt 1 ]}.
Definition second_info : dict := <[ "new_folder" := VStr "/data/moved" ]> {[ "k" := VInt 2 ]}.
Definition first_validator : Validator := OtherValidator (λ _, ret (true, first_info)).
Definition second_validator : Validator := OtherValidator (λ _, ret (true, second_info)).
Definition rejecting_validator : Validator :=
  OtherValidator (λ _, ret (false, error_info "no")).

(** ** Paths that do not exist, read literally *)


(** The longest name a directory entry can have on Linux, in bytes. *)
Definition NAME_MAX : Z := 255.

(** The error numbers of the sample runs, after Linux: the lookup of a path
    with a component longer than [NAME_MAX] fails with [ENAMETOOLONG], any
    other lookup that finds nothing with [ENOENT]. *)
Definition sample_failure : nat → string → Z :=
  λ _ p,
    if existsb (λ component, NAME_MAX <? Z.of_nat (String.length component))
         (split_slash p)
    then Errno.ENAMETOOLONG else Errno.ENOENT.


(** ** The polling [validate], read literally *)

(** With a timeout [t] handed to [validate]: a listing pass starts only when
    the elapsed time just read is below [t]; and once a reading has reached
    [t], all passes before it having found no non-empty [ShotLog.json], the
    call returns [False]. *)
Definition polling_as_stated : Prop :=
  ∀ (cls : Synchronous.handler_class) (self : Synchronous.EventHandler)
    (event : Event) (t : Z) (w : Synchronous.World),
    (∀ fuel,
       Forall (λ elapsed, elapsed < t)
         (Synchronous.passes
            (Synchronous.validate cls self event (Some t) fuel w)))
    ∧ (∀ n fuel,
         t ≤ Synchronous.clock w (S n) - Synchronous.clock w 0 →
         (∀ k, (1 ≤ k ≤ n)%nat →
               Synchronous.listing_pass w k (src_path event) = Synchronous.Ok false) →
         (n < fuel)%nat →
         Synchronous.outcome_of
           (Synchronous.validate cls self event (Some t) fuel w)
         = Synchronous.Returned false).

(** A clock that advances by one tick per reading, and a directory that
    holds an empty [ShotLog.json] at every listing. *)
Definition ticking_world : Synchronous.World :=
  Synchronous.mk_World (λ n, Z.of_nat n) (λ _, true)
    (λ _ _, Synchronous.Ok [("notes.txt", Synchronous.Ok "x");
                            ("ShotLog.json", Synchronous.Ok "")]).

Definition sample_handler : Synchronous.EventHandler :=
  Synchronous.mk_EventHandler 2.

Definition folder_event : Event := mk_Event "/data/shot" true.

(** ** What a validator asks of a path, said at once *)

(** [x] is not below the bound [lo], when there is one. *)
Definition not_before {B} (ltb : B → B → bool) (lo : option B) (x : B) : bool :=
  match lo with
  | Some b => negb (ltb x b)
  | None => true
  end.

(** [x] is not above the bound [hi], when there is one. *)
Definition not_after {B} (ltb : B → B → bool) (hi : option B) (x : B) : bool :=
  match hi with
  | Some b => negb (ltb b x)
  | None => true
  end.

(** The pattern, when there is one, is found in the last component. *)
Definition name_matches (self : BaseValidatorConfig) (path : Path) : bool :=
  match name_pattern self with
  | Some pat => search pat (Pathlib.name path)
  | None => true
  end.

(** The constraints of [validate_common] on what is found at the path. *)
Definition common_constraints (self : BaseValidatorConfig) (path : Path)
    (st : stat_result) : bool :=
  name_matches self path
  && not_before Datetime.ltb (creation_date_min self) (creation_time_of st)
  && not_after Datetime.ltb (creation_date_max self) (creation_time_of st)
  && not_before Datetime.ltb (modified_date_min self) (st_mtime st)
  && not_after Datetime.ltb (modified_date_max self) (st_mtime st).

Definition file_constraints (self : FileValidatorConfig) (path : Path)
    (st : stat_result) : bool :=
  bool_decide (st_kind st = RegularFile)
  && common_constraints (base self) path st
  && not_before Z.ltb (filesize_min self) (st_size st)
  && not_after Z.ltb (filesize_max self) (st_size st).

Definition folder_constraints (self : BaseValidatorConfig) (path : Path)
    (st : stat_result) : bool :=
  bool_decide (st_kind st = Directory) && common_constraints self path st.

(** A [FileValidator] configuration with the attributes of a
    [BaseValidator] and no size bound. *)
Definition without_size (self : BaseValidatorConfig) : FileValidatorConfig :=
  mk_FileValidator self None None.

(** A validator all of whose parts are instances of the three classes of
    the module. *)
Fixpoint builtin (v : Validator) : bool :=
  match v with
  | FileValidator _ | FolderValidator _ => true
  | CompositeValidator validators => forallb builtin validators
  | OtherValidator _ => false
  end.

(** On the unchanging filesystem [fs] the computation returns the same
    value and performs the same operations whatever happened before. *)
Definition settled {A} (fs : FS) (m : M A) : Prop :=
  ∃ (a : A) (ops : list op), ∀ l, m (static fs) l = (Ret a, l ++ ops).


(** The constraint [b'] is [b] or no constraint at all. *)
Definition looser {B} (b' b : option B) : Prop := b' = None ∨ b' = b.

(** [self'] is [self] with some of its constraints dropped. *)
Definition relaxed_base (self' self : BaseValidatorConfig) : Prop :=
  looser (name_pattern self') (name_pattern self)
  ∧ looser (creation_date_min self') (creation_date_min self)
  ∧ looser (creation_date_max self') (creation_date_max self)
  ∧ looser (modified_date_min self') (modified_date_min self)
  ∧ looser (modified_date_max self') (modified_date_max self).

Definition relaxed (self' self : FileValidatorConfig) : Prop :=
  relaxed_base (base self') (base self)
  ∧ looser (filesize_min self') (filesize_min self)
  ∧ looser (filesize_max self') (filesize_max self).

(** ** A processor whose validator looks at the path alone *)

(** The validator returns [verdict p] for the path [p], whenever it is
    called. *)
Definition decides (v : Validator) (w : Timeline)
    (verdict : string → bool * dict) : Prop :=
  ∀ p l, ∃ l', validate v p w l = (Ret (verdict p), l').

(** The same for a processor; one without validator passes every path with
    an empty map. *)
Definition processor_decides (self : EventProcessor) (w : Timeline)
    (verdict : string → bool * dict) : Prop :=
  match validator self with
  | Some v => decides v w verdict
  | None => ∀ p, verdict p = (true, ∅)
  end.

(** What the processor hands on for an event: nothing when the verdict is a
    rejection, else the replacement path of the map or the event's own. *)
Definition resolved (verdict : string → bool * dict) (event : Event)
  : option string :=
  if (verdict (src_path event)).1
  then Some (match (verdict (src_path event)).2 !! "new_folder" with
             | Some override => str_value override
             | None => src_path event
             end)
  else None.

Definition forwarded (verdict : string → bool * dict) (events : list Event)
  : list string :=
  omap (resolved verdict) events.

(** The state a run of the loop ends in. *)
Definition final_state (o : loop_outcome) : State :=
  match o with
  | Suspended st | Raised _ st | Running st => st
  end.

(** The number of [task_done] calls among [cs]. *)
Definition task_done_count (cs : list queue_call) : nat :=
  count_occ queue_call_eq_dec cs QTaskDone.

(** The verdict of a validator on the unchanging filesystem [fs], read off a
    call on an empty log (a call that raises counts as a rejection). *)
Definition static_verdict (v : Validator) (fs : FS) (p : string) : bool * dict :=
  match (validate v p (static fs) []).1 with
  | Ret verdict => verdict
  | Raise _ => (false, ∅)
  end.

(** ** path_task_manager.py: the consumer loop *)

(** How a call of the user's callback ends: it returns, it raises an
    [Exception], or it raises something that is not one (a cancellation, a
    keyboard interrupt). The outcome is taken to depend on the task alone. *)
Inductive callback_outcome :=
| CallbackReturns
| CallbackRaisesException
| CallbackRaisesBaseException.

Global Instance callback_outcome_eq_dec : EqDecision callback_outcome.
Proof. solve_decision. Defined.

(** Calls made by the consumer loop, in program order. *)
Inductive consumer_call :=
| CGet (task : string)
| CCallback (task : string)
| CLogException (task : string)
| CTaskDone.

Global Instance consumer_call_eq_dec : EqDecision consumer_call.
Proof. solve_decision. Defined.

(** The items waiting in [self.task_queue] and the calls issued so far. *)
Record ConsumerState := mk_ConsumerState {
  task_queue : list string;
  consumer_calls : list consumer_call
}.

Inductive turn_end := Continues | Propagates.

(** The [try ... except Exception ... finally] statement of the loop, for the
    task just taken: the callback, when there is one, is called with the
    task; an [Exception] is logged; [task_done] is called in every case; what
    is not an [Exception] goes on propagating. *)
Definition consume_one (consume_callback : option (string → callback_outcome))
    (task : string) (cs : list consumer_call) : turn_end * list consumer_call :=
  match consume_callback with
  | None => (Continues, cs ++ [CTaskDone])
  | Some callback =>
      let cs := cs ++ [CCallback task] in
      match callback task with
      | CallbackReturns => (Continues, cs ++ [CTaskDone])
      | CallbackRaisesException => (Continues, cs ++ [CLogException task; CTaskDone])
      | CallbackRaisesBaseException => (Propagates, cs ++ [CTaskDone])
      end
  end.

(** One turn of the consumer loop; [None] when the queue is empty and [get]
    suspends. *)
Definition consumer_step (consume_callback : option (string → callback_outcome))
    (st : ConsumerState) : option (turn_end * ConsumerState) :=
  match task_queue st with
  | [] => None
  | task :: rest =>
      let r := consume_one consume_callback task (consumer_calls st ++ [CGet task]) in
      Some (r.1, mk_ConsumerState rest r.2)
  end.

Inductive consumer_outcome :=
| ConsumerSuspended (st : ConsumerState)
| ConsumerStopped (st : ConsumerState)
| ConsumerRunning (st : ConsumerState).

(** [PathTaskManager._consume_task_queue], for at most [fuel] turns. *)
Fixpoint _consume_task_queue (fuel : nat)
    (consume_callback : option (string → callback_outcome))
    (st : ConsumerState) : consumer_outcome :=
  match fuel with
  | O => ConsumerRunning st
  | S fuel' =>
      match consumer_step consume_callback st with
      | None => ConsumerSuspended st
      | Some (Continues, st') => _consume_task_queue fuel' consume_callback st'
      | Some (Propagates, st') => ConsumerStopped st'
      end
  end.

(** The tasks taken from the queue, those handed to the callback and those
    whose exception was logged, each in order, and the number of
    [task_done] calls. *)
Definition taken (cs : list consumer_call) : list string :=
  omap (λ c, match c with CGet task => Some task | _ => None end) cs.

Definition called (cs : list consumer_call) : list string :=
  omap (λ c, match c with CCallback task => Some task | _ => None end) cs.

Definition logged (cs : list consumer_call) : list string :=
  omap (λ c, match c with CLogException task => Some task | _ => None end) cs.

Definition done_count (cs : list consumer_call) : nat :=
  count_occ consumer_call_eq_dec cs CTaskDone.

(** ** The two loops of [PathTaskManager.run] side by side *)

(** The processor's state (its buffer is the task queue), the consumer's
    calls, and which of the two loops an exception has ended. *)
Record Pipeline := mk_Pipeline {
  processor_state : State;
  consumer_log : list consumer_call;
  processor_ended : bool;
  consumer_ended : bool
}.

Inductive loop_name := ProcessorLoop | ConsumerLoop.

(** The scheduler lets one loop make one turn. A loop that has ended, or
    whose queue is empty, makes none. *)
Definition pipeline_turn (self : EventProcessor)
    (consume_callback : option (string → callback_outcome)) (w : Timeline)
    (p : Pipeline) (which : loop_name) : Pipeline :=
  match which with
  | ProcessorLoop =>
      if processor_ended p then p
      else match step self w (processor_state p) with
           | None => p
           | Some (r, st') =>
               mk_Pipeline st' (consumer_log p)
                 (match r with Ret _ => false | Raise _ => true end)
                 (consumer_ended p)
           end
  | ConsumerLoop =>
      if consumer_ended p then p
      else match buffer (processor_state p) with
           | None => p
           | Some items =>
               match consumer_step consume_callback
                       (mk_ConsumerState items (consumer_log p)) with
               | None => p
               | Some (r, cst') =>
                   let st := processor_state p in
                   mk_Pipeline
                     (mk_State (event_queue st) (Some (task_queue cst'))
                        (fs_log st) (calls st))
                     (consumer_calls cst') (processor_ended p)
                     (match r with Continues => false | Propagates => true end)
               end
           end
  end.

(** The turns of a schedule, one after the other. *)
Definition run_schedule (self : EventProcessor)
    (consume_callback : option (string → callback_outcome)) (w : Timeline)
    (schedule : list loop_name) (p : Pipeline) : Pipeline :=
  foldl (pipeline_turn self consume_callback w) p schedule.

(** Everything that has reached the consumer or is on its way to it: the
    tasks taken, then the task queue, then what the waiting events will
    give. *)
Definition in_order (verdict : string → bool * dict) (p : Pipeline)
  : list string :=
  taken (consumer_log p)
  ++ default [] (buffer (processor_state p))
  ++ forwarded verdict (event_queue (processor_state p)).

(** ** synchronous/event_handler.py: what a handler does with an event *)

Module SyncHandler.

Import Synchronous.

(** The two effects of letting an event through:
    [self.buffer.put(event.src_path)] and
    [self.folders_detected.labels(event.src_path).inc()]. *)
Inductive effect :=
| BufferPut (item : string)
| CounterInc (label : string).

Inductive handling :=
| Handled (effects : list effect)
| HandlerRaised (e : io_error)
| HandlerPolling.

(** [process_event], the same statements in [TestDataEventHandler] and in
    [LastShotEventHandler]: [validate] is called without a timeout, and only
    when [self.validation_enabled] is set. *)
Definition process_event (cls : handler_class) (self : EventHandler)
    (validation_enabled : bool) (event : Event) (fuel : nat) (w : World)
  : handling :=
  let put := Handled [BufferPut (src_path event); CounterInc (src_path event)] in
  if validation_enabled then
    match outcome_of (validate cls self event None fuel w) with
    | Returned true => put
    | Returned false => Handled []
    | Raised e => HandlerRaised e
    | Polling => HandlerPolling
    end
  else put.

(** [on_created]: both classes process the event. *)
Definition on_created (cls : handler_class) := process_event cls.

(** [on_modified]: [LastShotEventHandler] processes the event;
    [TestDataEventHandler] inherits the method that does nothing. *)
Definition on_modified (cls : handler_class) (self : EventHandler)
    (validation_enabled : bool) (event : Event) (fuel : nat) (w : World)
  : handling :=
  match cls with
  | TestDataEventHandler => Handled []
  | LastShotEventHandler =>
      process_event cls self validation_enabled event fuel w
  end.

End SyncHandler.

(** A directory that holds, besides other files, an unreadable
    [ShotLog.json] at the first listing and a filled one from the second
    on. *)
Definition filling_world : Synchronous.World :=
  Synchronous.mk_World (λ n, Z.of_nat n) (λ _, true)
    (λ n _, Synchronous.Ok
              [("notes.txt", Synchronous.Err Synchronous.UnicodeDecodeError);
               ("ShotLog.json",
                if (n <? 2)%nat then Synchronous.Err Synchronous.OSError
                else Synchronous.Ok "{}")]).

(** * Properties *)

(** Membership in an explicit list of calls, by cases on the position. *)
Ltac by_position :=
  let c := fresh "c" in
  let Hc := fresh "Hc" in
  intros c Hc;
  repeat (apply elem_of_cons in Hc; destruct Hc as [-> | Hc]);
  [eauto .. | by apply elem_of_nil in Hc].

(** ** Strings *)


Lemma contains_unfold (needle hay : string) :
  contains needle hay =
  String.prefix needle hay ||
  match hay with
  | EmptyString => false
  | String _ hay' => contains needle hay'
  end.
Proof. by destruct hay. Qed.


Lemma contains_later (s a t : string) :
  contains s t = true → contains s (a +:+ t) = true.
Proof.
  intros H. induction a as [|c a IH]; simpl; [done |].
  rewrite IH. apply orb_true_r.
Qed.


Lemma prefix_app_r (s t b : string) :
  String.prefix s t = true → String.prefix s (t +:+ b) = true.
Proof.
  revert t. induction s as [|c s IH]; intros [|d t]; simpl; try done.
  - by destruct b.
  - destruct (Ascii.ascii_dec c d); [apply IH | done].
Qed.

(** Appending on the right keeps what a string contains. *)
Lemma contains_app_r (s t b : string) :
  contains s t = true → contains s (t +:+ b) = true.
Proof.
  induction t as [|c t IH]; intros H;
    rewrite contains_unfold in H; rewrite (contains_unfold s (_ +:+ b)).
  - rewrite orb_false_r in H. by rewrite (prefix_app_r _ _ _ H).
  - apply orb_true_iff in H as [H | H].
    + by rewrite (prefix_app_r _ _ _ H).
    + simpl. rewrite (IH H). apply orb_true_r.
Qed.

(** ** CompositeValidator *)

(** C10. A composite validator built on the empty list accepts every path
    with an empty attribute map, and performs no operation at all: the log
    of operations is returned as it was received. *)
Theorem composite_empty_accepts (path_input : string) (w : Timeline) (l : list op) :
  CompositeValidator_validate [] path_input w l = (Ret (true, ∅), l).
Proof. reflexivity. Qed.

(** C4. For a composite of two validators, where the second is called in
    the state the first one leaves:
    - the composite accepts exactly when both members accept;
    - when the first rejects, the composite's result and log are those of
      the first call, so the second member is never called;
    - when both accept, the returned map is the second member's map laid
      over the first's: on a shared key the later value wins. *)
Theorem composite_pair (V1 V2 : Validator) (p : string) (w : Timeline) (l : list op) :
  let c := CompositeValidator_validate [V1; V2] p w l in
  let r1 := validate V1 p w (l ++ [OpValidate 0 p]) in
  let r2 := validate V2 p w (r1.2 ++ [OpValidate 1 p]) in
  (accepted c ↔ accepted r1 ∧ accepted r2)
  ∧ (∀ info1, r1.1 = Ret (false, info1) → c = (Ret (false, info1), r1.2))
  ∧ (∀ info1 info2,
       r1.1 = Ret (true, info1) → r2.1 = Ret (true, info2) →
       ∃ merged : dict,
         c = (Ret (true, merged), r2.2) ∧
         ∀ k, merged !! k = match info2 !! k with
                            | Some v => Some v
                            | None => info1 !! k
                            end).
Proof.
  unfold CompositeValidator_validate, accepted; simpl.
  unfold bind, ret, record, dict_update.
  destruct (validate V1 p w (l ++ [OpValidate 0 p])) as [[[[] i1]|e1] l1]; simpl.
  - destruct (validate V2 p w (l1 ++ [OpValidate 1 p])) as [[[[] i2]|e2] l2]; simpl.
    + split; [|split].
      * split; [intros _; split; eauto | eauto].
      * intros ? [=].
      * intros ? ? [= <-] [= <-]. eexists; split; [done |].
        intros k. rewrite lookup_union, lookup_union, lookup_empty.
        destruct (i2 !! k), (i1 !! k); done.
    + split; [|split].
      * split; [intros [? [=]] | intros [_ [? [=]]]].
      * intros ? [=].
      * intros ? ? _ [=].
    + split; [|split].
      * split; [intros [? [=]] | intros [_ [? [=]]]].
      * intros ? [=].
      * intros ? ? _ [=].
  - split; [|split].
    + split; [intros [? [=]] | intros [[? [=]] _]].
    + intros ? [= <-]. done.
    + intros ? ? [=].
  - split; [|split].
    + split; [intros [? [=]] | intros [[? [=]] _]].
    + intros ? [=].
    + intros ? ? [=].
Qed.

Lemma composite_pair_witness :
  ∃ merged : dict,
    CompositeValidator_validate [first_validator; second_validator] "/data/x"
      (static ∅) []
    = (Ret (true, merged), [OpValidate 0 "/data/x"; OpValidate 1 "/data/x"])
    ∧ merged !! "k" = Some (VInt 2).
Proof.
  destruct (proj2 (proj2 (composite_pair first_validator second_validator
                            "/data/x" (static ∅) []))
              first_info second_info eq_refl eq_refl) as [merged [Hc Hm]].
  exists merged. split; [exact Hc | rewrite Hm; reflexivity].
Defined.

(** ** Paths that do not exist *)




(** A file that is there for the first two tests and gone afterwards is a
    different matter: [stat] raises, and so does [validate]. *)
Example vanishing_file_raises :
  FileValidator_validate (report_validator 1000 2000) "/data/report.txt"
    (λ k, if (k <? 2)%nat then sample_fs 1500 else ∅) []
  = (Raise (FileNotFoundError "/data/report.txt"),
     [OpExists "/data/report.txt"; OpIsFile "/data/report.txt";
      OpSearch "report" "report.txt"; OpStat "/data/report.txt"]).
Proof. vm_compute. reflexivity. Qed.

(** The same run with the error number made explicit. *)
Example vanishing_file_raises_with_errno :
  Errno.FileValidator_validate sample_failure (report_validator 1000 2000)
    "/data/report.txt" (λ k, if (k <? 2)%nat then sample_fs 1500 else ∅) []
  = (Raise (FileNotFoundError "/data/report.txt"),
     [OpExists "/data/report.txt"; OpIsFile "/data/report.txt";
      OpSearch "report" "report.txt"; OpStat "/data/report.txt"]).
Proof. vm_compute. reflexivity. Qed.

(** ** EventProcessor *)

(** C1. When the event at the head of the queue is rejected by the
    configured validator, the turn of the loop that takes it ends normally
    with the buffer untouched: the only calls it issues are the [get] and one
    [task_done], and no [put]. *)
Theorem rejected_event_never_reaches_buffer (self : EventProcessor)
    (v : Validator) (w : Timeline) (st : State) (event : Event)
    (rest : list Event) (info : dict) (l : list op) :
  event_queue st = event :: rest →
  validator self = Some v →
  validate v (src_path event) w (fs_log st) = (Ret (false, info), l) →
  ∃ st', step self w st = Some (Ret tt, st')
         ∧ buffer st' = buffer st
         ∧ calls st' = calls st ++ [QGet event; QTaskDone].
Proof.
  intros Hq Hv Hval. unfold step, iteration. rewrite Hq, Hv. simpl.
  rewrite Hval. simpl. eexists. split; [done |]. simpl.
  split; [done |]. by rewrite <- app_assoc.
Qed.

Lemma rejected_event_never_reaches_buffer_witness :
  ∃ st',
    step (mk_EventProcessor (Some rejecting_validator) 0) (static ∅)
      (mk_State [mk_Event "/data/x" false] (Some ["earlier"]) [] [])
    = Some (Ret tt, st')
    ∧ buffer st' = Some ["earlier"]
    ∧ calls st' = [QGet (mk_Event "/data/x" false); QTaskDone].
Proof.
  apply (rejected_event_never_reaches_buffer
           (mk_EventProcessor (Some rejecting_validator) 0) rejecting_validator
           (static ∅)
           (mk_State [mk_Event "/data/x" false] (Some ["earlier"]) [] [])
           (mk_Event "/data/x" false) [] (error_info "no") []);
    reflexivity.
Defined.

(** The calls of one turn that ends normally: the [get], then possibly a
    [sleep] and a [put], then [task_done] as the last call. *)
Lemma step_calls (self : EventProcessor) (w : Timeline) (st st' : State) :
  step self w st = Some (Ret tt, st') →
  ∃ event middle,
    calls st' = calls st ++ QGet event :: middle ++ [QTaskDone]
    ∧ ∀ c, c ∈ middle → (∃ x, c = QSleep x) ∨ (∃ s, c = QPut s).
Proof.
  unfold step, iteration.
  destruct (event_queue st) as [|event rest]; [done |].
  intros [= Hst]. exists event. revert Hst.
  destruct (validator self) as [v|]; simpl.
  - destruct (validate v (src_path event) w (fs_log st)) as [[[[] info]|e] l];
      simpl; [| | done].
    + destruct (bool_decide (process_delay self ≠ 0)); simpl;
        destruct (buffer st); simpl;
        intros [= <-]; simpl; rewrite <- ?app_assoc; simpl.
      * exists [QSleep (process_delay self); QPut (str_value (default (VStr (src_path event)) (info !! "new_folder")))].
        split; [done |]. by_position.
      * exists [QSleep (process_delay self)]. split; [done |]. by_position.
      * exists [QPut (str_value (default (VStr (src_path event)) (info !! "new_folder")))].
        split; [done |]. by_position.
      * exists []. split; [done |]. by_position.
    + intros [= <-]; simpl; rewrite <- ?app_assoc; simpl.
      exists []. split; [done |]. by_position.
  - destruct (bool_decide (process_delay self ≠ 0)); simpl;
      destruct (buffer st); simpl;
      intros [= <-]; simpl; rewrite <- ?app_assoc; simpl.
    + exists [QSleep (process_delay self); QPut (src_path event)].
      split; [done |]. by_position.
    + exists [QSleep (process_delay self)]. split; [done |]. by_position.
    + exists [QPut (src_path event)]. split; [done |]. by_position.
    + exists []. split; [done |]. by_position.
Qed.

(** A turn on a non-empty queue ends normally unless the validator raises. *)
Lemma step_returns (self : EventProcessor) (w : Timeline) (st : State)
    (event : Event) (rest : list Event) :
  event_queue st = event :: rest →
  (∀ v, validator self = Some v →
        ∃ r l, validate v (src_path event) w (fs_log st) = (Ret r, l)) →
  ∃ st', step self w st = Some (Ret tt, st').
Proof.
  intros Hq Hv. unfold step, iteration. rewrite Hq.
  destruct (validator self) as [v|]; simpl.
  - destruct (Hv v eq_refl) as ([[] info] & l & ->); simpl; [|eauto].
    destruct (buffer _); eauto.
  - destruct (buffer _); eauto.
Qed.

(** C2. Whenever an event is taken from the queue and the validator, if
    there is one, returns, the turn ends normally and issues exactly one
    [task_done]: after a rejection, when no buffer is configured, and after
    the item has been put into the buffer alike. *)
Theorem task_done_exactly_once (self : EventProcessor) (w : Timeline)
    (st : State) (event : Event) (rest : list Event) :
  event_queue st = event :: rest →
  (∀ v, validator self = Some v →
        ∃ r l, validate v (src_path event) w (fs_log st) = (Ret r, l)) →
  ∃ st' delta,
    step self w st = Some (Ret tt, st')
    ∧ calls st' = calls st ++ delta
    ∧ count_occ queue_call_eq_dec delta QTaskDone = 1%nat.
Proof.
  intros Hq Hv. destruct (step_returns _ _ _ _ _ Hq Hv) as [st' Hstep].
  destruct (step_calls _ _ _ _ Hstep) as (e & middle & Hc & Hm).
  exists st', (QGet e :: middle ++ [QTaskDone]). split; [done |]. split; [done |].
  simpl. destruct (queue_call_eq_dec (QGet e) QTaskDone) as [|_]; [done |].
  rewrite count_occ_app. simpl.
  destruct (queue_call_eq_dec QTaskDone QTaskDone) as [_|]; [|done].
  rewrite (proj1 (count_occ_not_In queue_call_eq_dec middle QTaskDone)); [done |].
  intros Hin. apply list_elem_of_In in Hin.
  destruct (Hm _ Hin) as [[x H] | [s H]]; discriminate.
Qed.

Lemma task_done_exactly_once_witness :
  ∃ st' delta,
    step (mk_EventProcessor (Some rejecting_validator) 5) (static ∅)
      (mk_State [mk_Event "/data/x" false] (Some []) [] [])
    = Some (Ret tt, st')
    ∧ calls st' = [] ++ delta
    ∧ count_occ queue_call_eq_dec delta QTaskDone = 1%nat.
Proof.
  apply (task_done_exactly_once
           (mk_EventProcessor (Some rejecting_validator) 5) (static ∅)
           (mk_State [mk_Event "/data/x" false] (Some []) [] [])
           (mk_Event "/data/x" false) []).
  - reflexivity.
  - intros v [= <-]. by exists (false, error_info "no"), [].
Defined.

(** The three ways a turn ends, on sample events: a rejection, no buffer
    (after the configured delay), and a put into the buffer. *)
Example turn_after_rejection :
  calls <$> (snd <$> step (mk_EventProcessor (Some rejecting_validator) 5) (static ∅)
                       (mk_State [mk_Event "/data/x" false] (Some []) [] []))
  = Some [QGet (mk_Event "/data/x" false); QTaskDone].
Proof. reflexivity. Qed.

Example turn_without_buffer :
  calls <$> (snd <$> step (mk_EventProcessor (Some first_validator) 5) (static ∅)
                       (mk_State [mk_Event "/data/x" false] None [] []))
  = Some [QGet (mk_Event "/data/x" false); QSleep 5; QTaskDone].
Proof. reflexivity. Qed.

Example turn_with_buffer :
  calls <$> (snd <$> step (mk_EventProcessor (Some first_validator) 0) (static ∅)
                       (mk_State [mk_Event "/data/x" false] (Some []) [] []))
  = Some [QGet (mk_Event "/data/x" false); QPut "/data/x"; QTaskDone].
Proof. reflexivity. Qed.

(** C6. When the event at the head of the queue is accepted by the
    configured validator and a buffer is configured, the turn appends one
    item to the buffer: the string form of the value the returned map holds
    under ["new_folder"] when that key is present, and the event's source
    path otherwise. *)
Theorem accepted_event_enqueues_resolved_path (self : EventProcessor)
    (v : Validator) (w : Timeline) (st : State) (event : Event)
    (rest : list Event) (info : dict) (l : list op) (items : list string) :
  event_queue st = event :: rest →
  validator self = Some v →
  validate v (src_path event) w (fs_log st) = (Ret (true, info), l) →
  buffer st = Some items →
  let item := match info !! "new_folder" with
              | Some override => str_value override
              | None => src_path event
              end in
  ∃ st', step self w st = Some (Ret tt, st')
         ∧ buffer st' = Some (items ++ [item])
         ∧ QPut item ∈ calls st'.
Proof.
  intros Hq Hv Hval Hb item. unfold step, iteration. rewrite Hq, Hv. simpl.
  rewrite Hval. simpl.
  assert (str_value (default (VStr (src_path event)) (info !! "new_folder")) = item)
    as -> by (subst item; by destruct (info !! "new_folder")).
  destruct (bool_decide (process_delay self ≠ 0)); simpl; rewrite Hb; simpl;
    (eexists; split; [done |]; simpl; rewrite Hb; split; [done |]);
    rewrite !elem_of_app; left; right; by apply list_elem_of_singleton.
Qed.

Lemma accepted_event_enqueues_resolved_path_witness :
  ∃ st',
    step (mk_EventProcessor (Some second_validator) 0) (static ∅)
      (mk_State [mk_Event "/data/x" false] (Some ["earlier"]) [] [])
    = Some (Ret tt, st')
    ∧ buffer st' = Some (["earlier"] ++ ["/data/moved"])
    ∧ QPut "/data/moved" ∈ calls st'.
Proof.
  apply (accepted_event_enqueues_resolved_path
           (mk_EventProcessor (Some second_validator) 0) second_validator
           (static ∅)
           (mk_State [mk_Event "/data/x" false] (Some ["earlier"]) [] [])
           (mk_Event "/data/x" false) [] second_info [] ["earlier"]);
    reflexivity.
Defined.

(** The calls a processor without validator and without delay issues for one
    event. *)
Lemma forward_step (w : Timeline) (event : Event) (rest : list Event)
    (items : list string) (l : list op) (cs : list queue_call) :
  step (mk_EventProcessor None 0) w (mk_State (event :: rest) (Some items) l cs)
  = Some (Ret tt,
          mk_State rest (Some (items ++ [src_path event])) l
            (cs ++ [QGet event; QPut (src_path event); QTaskDone])).
Proof.
  unfold step, iteration; simpl. unfold task_done, buffer_put, call; simpl.
  by rewrite <- !app_assoc.
Qed.

(** C8. A processor with no validator and [process_delay = 0], started on
    a queue holding [events], suspends on the empty queue after one turn per
    event, having appended to the buffer the source path of every event,
    unchanged and in arrival order; more fuel changes nothing. *)
Theorem forwards_in_arrival_order (events : list Event) (items : list string)
    (l : list op) (cs : list queue_call) (w : Timeline) (extra : nat) :
  process_events (S (List.length events) + extra) (mk_EventProcessor None 0) w
    (mk_State events (Some items) l cs)
  = Suspended
      (mk_State [] (Some (items ++ map src_path events)) l
         (cs ++ flat_map (λ e, [QGet e; QPut (src_path e); QTaskDone]) events)).
Proof.
  revert items cs. induction events as [|event rest IH]; intros items cs.
  - simpl. by rewrite !app_nil_r.
  - change (S (List.length (event :: rest)) + extra)%nat
      with (S (S (List.length rest) + extra)).
    cbn [process_events]. rewrite forward_step. rewrite IH.
    simpl. by rewrite <- !app_assoc.
Qed.

(** ** FileValidator *)

(** Running a list of checks in two parts. *)
Lemma first_failure_app (self : FileValidatorConfig) (fs : FS) (path : Path)
    (cs1 cs2 : list check) (l : list op) :
  first_failure self fs path (cs1 ++ cs2) l =
  match first_failure self fs path cs1 l with
  | (Some reason, ops) => (Some reason, ops)
  | (None, ops) => first_failure self fs path cs2 ops
  end.
Proof.
  revert l. induction cs1 as [|c cs1 IH]; intros l; cbn [app first_failure].
  - done.
  - destruct (check_failure self fs path c); [done | apply IH].
Qed.

(** When every check of a list passes, the run reports no failure. *)
Lemma first_failure_all_pass (self : FileValidatorConfig) (fs : FS) (path : Path)
    (cs : list check) (l : list op) :
  (∀ c, c ∈ cs → check_failure self fs path c = None) →
  ∃ ops, first_failure self fs path cs l = (None, ops).
Proof.
  revert l. induction cs as [|c cs IH]; intros l Hall; cbn [first_failure].
  - eauto.
  - rewrite Hall by apply list_elem_of_here.
    apply IH. intros c' Hc'. apply Hall. by apply list_elem_of_further.
Qed.

(** On an existing path and an unchanging filesystem, [validate_common] is
    the first-failure run of the common checks. *)
Lemma validate_common_first_failure (self : FileValidatorConfig) (fs : FS)
    (path : Path) (st : stat_result) (l : list op) :
  fs !! Pathlib.str path = Some st →
  validate_common (base self) path (static fs) l =
  match first_failure self fs path common_checks l with
  | (Some reason, ops) => (Ret (false, error_info reason), ops)
  | (None, ops) => (Ret (true, common_info self st), ops)
  end.
Proof.
  intros E. destruct self as [[pat cmin cmax mmin mmax] smin smax].
  unfold common_info, common_checks.
  cbn [first_failure check_failure check_ops base name_pattern creation_date_min
       creation_date_max modified_date_min modified_date_max].
  unfold validate_common, get_creation_time, path_stat, pattern_search, observe,
    bind, ret, unless, violated, static, creation_time_of.
  rewrite E.
  repeat first
         [ progress cbn
         | rewrite E
         | match goal with
           | |- ?lhs = _ =>
               match lhs with
               | context [match ?x with _ => _ end] =>
                   first [is_var x
                         | match x with
                           | search _ _ => idtac
                           | Datetime.ltb _ _ => idtac
                           end];
                   destruct x eqn:?
               | context [if ?x then _ else _] =>
                   match x with
                   | search _ _ => idtac
                   | Datetime.ltb _ _ => idtac
                   end;
                   destruct x eqn:?
               | context [negb (search ?q ?n)] => destruct (search q n) eqn:?
               end
           end ].
  all: rewrite ?app_nil_r; reflexivity.
Qed.


(** A file whose directory matches the pattern but whose own name does not is
    rejected: the search sees ["other.txt"], not the whole path. *)
Example name_searched_in_last_component :
  FileValidator_validate (report_validator 1000 2000) "/report/other.txt"
    (static {[ "/report/other.txt" := sample_stat RegularFile 1500 ]}) []
  = (Ret (false, error_info "Name 'other.txt' does not match pattern 'report'."),
     [OpExists "/report/other.txt"; OpIsFile "/report/other.txt";
      OpSearch "report" "other.txt"]).
Proof. vm_compute. reflexivity. Qed.

(** A file of 1500 bytes named [report.txt], with bounds 1000 and 2000, is
    accepted and its size is reported. *)
Example report_of_1500_bytes_accepted :
  match (FileValidator_validate (report_validator 1000 2000) "/data/report.txt"
           (static (sample_fs 1500)) []).1 with
  | Ret (true, info) => info !! "filesize" = Some (VInt 1500)
  | _ => False
  end.
Proof. vm_compute. reflexivity. Qed.

(** A directory handed to [FileValidator] is rejected as not being a file,
    and a file handed to [FolderValidator] as not being a folder. *)
Example directory_is_not_a_file :
  (FileValidator_validate (report_validator 1000 2000) "/data/report.txt"
     (static {[ "/data/report.txt" := sample_stat Directory 0 ]}) []).1
  = Ret (false, error_info "Path '/data/report.txt' is not a file.").
Proof. vm_compute. reflexivity. Qed.

Example file_is_not_a_folder :
  (FolderValidator_validate (base (report_validator 1000 2000)) "/data/report.txt"
     (static (sample_fs 1500)) []).1
  = Ret (false, error_info "Path '/data/report.txt' is not a folder.").
Proof. vm_compute. reflexivity. Qed.

(** ** The size range *)

(** The result of [FileValidator.validate] once the size check is reached:
    the minimum is tested first, then the maximum. *)
Lemma validate_at_size_check (self : FileValidatorConfig) (path_input : string)
    (fs : FS) (l : list op) (st : stat_result) :
  size_check_reached self fs path_input st →
  (FileValidator_validate self path_input (static fs) l).1 =
  match violated (filesize_min self) (λ lo, st_size st <? lo)
          (msg_size_less (st_size st)) with
  | Some msg => Ret (false, error_info msg)
  | None =>
      match violated (filesize_max self) (λ hi, hi <? st_size st)
              (msg_size_greater (st_size st)) with
      | Some msg => Ret (false, error_info msg)
      | None => Ret (true, <["filesize" := VInt (st_size st)]> (common_info self st))
      end
  end.
Proof.
  unfold size_check_reached, FileValidator_validate. cbv zeta.
  generalize (Pathlib.parse path_input) as path. intros path [E Hpass].
  assert (st_kind st = RegularFile) as Hk.
  { pose proof (Hpass CheckIsFile) as H. unfold check_failure in H. rewrite E in H.
    destruct (decide (st_kind st = RegularFile)); [done |].
    discriminate H. unfold checks_before_size, common_checks. cbn.
    repeat constructor. }
  destruct (first_failure_all_pass self fs path common_checks
              ((l ++ [OpExists (Pathlib.str path)]) ++ [OpIsFile (Pathlib.str path)]))
    as [ops Hops].
  { intros c Hc. apply Hpass. unfold checks_before_size. cbn.
    by do 2 apply list_elem_of_further. }
  unfold path_exists, path_is_file, observe, bind at 1 2, static.
  rewrite E. cbn [negb]. rewrite bool_decide_eq_true_2 by eauto. cbn [negb].
  rewrite E, bool_decide_eq_true_2 by done. cbn [negb].
  unfold bind at 1.
  rewrite (validate_common_first_failure self fs path st) by done.
  rewrite Hops. cbn [fst snd negb].
  unfold bind, path_stat, observe, static, unless, ret, dict_update.
  rewrite E, (right_id_L ∅ (∪)).
  destruct (violated (filesize_min self) _ _); [done |].
  destruct (violated (filesize_max self) _ _); done.
Qed.

(** The two reasons of the size check contain the phrases that name them. *)
Lemma msg_size_less_phrase (filesize lo : Z) :
  contains "less than minimum" (msg_size_less filesize lo) = true.
Proof.
  unfold msg_size_less. do 2 apply contains_later. by apply contains_app_r.
Qed.

Lemma msg_size_greater_phrase (filesize hi : Z) :
  contains "greater than maximum" (msg_size_greater filesize hi) = true.
Proof.
  unfold msg_size_greater. do 2 apply contains_later. by apply contains_app_r.
Qed.

(** C5, as the code has it. For an existing regular file that passes the
    checks before the size check, with both bounds configured: a size below
    the minimum is rejected with a reason containing "less than minimum"; a
    size above the maximum and not below the minimum is rejected with a
    reason containing "greater than maximum"; a size within the bounds, ends
    included, is accepted and reported under ["filesize"]. *)
Theorem size_range_check (self : FileValidatorConfig) (path_input : string)
    (fs : FS) (l : list op) (st : stat_result) (lo hi : Z) :
  size_check_reached self fs path_input st →
  filesize_min self = Some lo →
  filesize_max self = Some hi →
  let r := FileValidator_validate self path_input (static fs) l in
  (st_size st < lo → rejected_with "less than minimum" r)
  ∧ (hi < st_size st → lo ≤ st_size st → rejected_with "greater than maximum" r)
  ∧ (lo ≤ st_size st ≤ hi →
     ∃ info, r.1 = Ret (true, info) ∧ info !! "filesize" = Some (VInt (st_size st))).
Proof.
  intros Hreach Hmin Hmax r. unfold rejected_with. subst r.
  rewrite (validate_at_size_check _ _ _ _ _ Hreach), Hmin, Hmax.
  unfold violated. split; [|split].
  - intros Hlt. rewrite (proj2 (Z.ltb_lt _ _) Hlt).
    eexists. split; [done | apply msg_size_less_phrase].
  - intros Hgt Hge. rewrite (proj2 (Z.ltb_ge _ _) Hge), (proj2 (Z.ltb_lt _ _) Hgt).
    eexists. split; [done | apply msg_size_greater_phrase].
  - intros [Hge Hle].
    rewrite (proj2 (Z.ltb_ge _ _) Hge), (proj2 (Z.ltb_ge _ _) Hle).
    eexists. split; [done | apply lookup_insert_eq].
Qed.

(** The sample file reaches the size check of the sample validator. *)
Lemma sample_reaches_size_check (size lo hi : Z) :
  size_check_reached (report_validator lo hi) (sample_fs size)
    "/data/report.txt" (sample_stat RegularFile size).
Proof.
  split; [by vm_compute |].
  unfold checks_before_size, common_checks. cbn [app]. by_position.
Defined.

Lemma size_range_check_witness :
  rejected_with "less than minimum"
    (FileValidator_validate (report_validator 1000 2000) "/data/report.txt"
       (static (sample_fs 500)) [])
  ∧ rejected_with "greater than maximum"
      (FileValidator_validate (report_validator 1000 2000) "/data/report.txt"
         (static (sample_fs 2500)) [])
  ∧ (∃ info,
       (FileValidator_validate (report_validator 1000 2000) "/data/report.txt"
          (static (sample_fs 2000)) []).1 = Ret (true, info)
       ∧ info !! "filesize" = Some (VInt 2000)).
Proof.
  split; [|split].
  - apply (size_range_check (report_validator 1000 2000) "/data/report.txt"
             (sample_fs 500) [] (sample_stat RegularFile 500) 1000 2000);
      [ split; [by vm_compute |];
        unfold checks_before_size, common_checks; cbn [app]; by_position
      | reflexivity | reflexivity | reflexivity ].
  - apply (size_range_check (report_validator 1000 2000) "/data/report.txt"
             (sample_fs 2500) [] (sample_stat RegularFile 2500) 1000 2000);
      [ split; [by vm_compute |];
        unfold checks_before_size, common_checks; cbn [app]; by_position
      | reflexivity | reflexivity | reflexivity | by vm_compute ].
  - apply (size_range_check (report_validator 1000 2000) "/data/report.txt"
             (sample_fs 2000) [] (sample_stat RegularFile 2000) 1000 2000);
      [ split; [by vm_compute |];
        unfold checks_before_size, common_checks; cbn [app]; by_position
      | reflexivity | reflexivity | split; by vm_compute ].
Defined.

(** The literal reading fails when the bounds are crossed: with a minimum of
    10 and a maximum of 5, a file of 7 bytes is above the maximum, yet the
    minimum is tested first and the reason given is the one for the
    minimum. *)
Lemma size_range_as_stated_fails : ¬ size_range_as_stated.
Proof.
  intros H.
  destruct (H (report_validator 10 5) "/data/report.txt" (sample_fs 7) []
              (sample_stat RegularFile 7) 10 5
              (sample_reaches_size_check 7 10 5) eq_refl eq_refl)
    as (_ & Hgreater & _).
  destruct Hgreater as (reason & Hr & Hphrase); [reflexivity |].
  assert ((FileValidator_validate (report_validator 10 5) "/data/report.txt"
             (static (sample_fs 7)) []).1
          = Ret (false, error_info "Filesize 7 is less than minimum allowed 10."))
    as Hrun by (vm_compute; reflexivity).
  rewrite Hrun in Hr.
  apply (f_equal (λ x : result (bool * dict),
                    match x with
                    | Ret (_, m) => m !! "error"
                    | Raise _ => None
                    end)) in Hr.
  unfold error_info in Hr. rewrite !lookup_singleton_eq in Hr.
  injection Hr as <-. by vm_compute in Hphrase.
Qed.

(** ** The polling validate of the synchronous handlers *)

Section Polling.

Import Synchronous.

Variables (w : World) (path : string) (start_time limit : Z).

(** Every listing pass is started on an elapsed time below the limit. *)
Lemma poll_passes_below_limit (fuel n : nat) (seen : list Z) :
  Forall (λ elapsed, elapsed < limit) seen →
  Forall (λ elapsed, elapsed < limit)
    (passes (poll fuel w path start_time limit n seen)).
Proof.
  revert n seen. induction fuel as [|fuel IH]; intros n seen Hseen; simpl.
  - done.
  - destruct (Z.ltb_spec (clock w n - start_time) limit) as [Hlt|Hge]; [|done].
    assert (Forall (λ elapsed, elapsed < limit) (seen ++ [clock w n - start_time]))
      as Hseen' by (apply Forall_app; split; [done | by constructor]).
    destruct (listing_pass w n path) as [[]|e]; simpl; [done | by apply IH | done].
Qed.

(** Once some reading [d] tests ahead has reached the limit, [d + 1] tests
    are enough for the loop to end. *)
Lemma poll_terminates (d : nat) :
  ∀ (fuel n : nat) (seen : list Z),
    limit ≤ clock w (n + d) - start_time →
    (d < fuel)%nat →
    outcome_of (poll fuel w path start_time limit n seen) ≠ Polling.
Proof.
  induction d as [|d IH]; intros [|fuel] n seen Hreach Hfuel; try lia; simpl.
  - rewrite Nat.add_0_r in Hreach.
    by rewrite (proj2 (Z.ltb_ge _ _) Hreach).
  - destruct (clock w n - start_time <? limit); [|done].
    destruct (listing_pass w n path) as [[]|e]; simpl; [done | | done].
    apply IH; [|lia]. by replace (S n + d)%nat with (n + S d)%nat by lia.
Qed.

(** If moreover every pass until then runs to its end without finding the
    file, the loop ends in the [else] branch. *)
Lemma poll_rejects (d : nat) :
  ∀ (fuel n : nat) (seen : list Z),
    limit ≤ clock w (n + d) - start_time →
    (∀ k, (n ≤ k < n + d)%nat → listing_pass w k path = Ok false) →
    (d < fuel)%nat →
    outcome_of (poll fuel w path start_time limit n seen) = Returned false.
Proof.
  induction d as [|d IH]; intros [|fuel] n seen Hreach Hnone Hfuel; try lia; simpl.
  - rewrite Nat.add_0_r in Hreach.
    by rewrite (proj2 (Z.ltb_ge _ _) Hreach).
  - destruct (clock w n - start_time <? limit); [|done].
    rewrite Hnone by lia.
    apply IH; [| |lia].
    + by replace (S n + d)%nat with (n + S d)%nat by lia.
    + intros k Hk. apply Hnone. lia.
Qed.

End Polling.

(** C9, as the code has it. The limit of a call is the timeout handed to
    it when that is given and not zero, and the handler's
    [validation_timeout] otherwise. A listing pass starts only on an elapsed
    time below the limit; once a reading of the clock has reached the limit
    the call is over; and it then returns [False] when every pass before that
    reading ran to its end without finding a non-empty [ShotLog.json]. *)
Theorem polling_bounded_by_limit (cls : Synchronous.handler_class)
    (self : Synchronous.EventHandler) (event : Event) (timeout : option Z)
    (w : Synchronous.World) :
  let limit := Synchronous.timeout_or_default self timeout in
  let run fuel := Synchronous.validate cls self event timeout fuel w in
  (∀ fuel, Forall (λ elapsed, elapsed < limit) (Synchronous.passes (run fuel)))
  ∧ (∀ n fuel,
       limit ≤ Synchronous.clock w (S n) - Synchronous.clock w 0 →
       (n < fuel)%nat →
       Synchronous.outcome_of (run fuel) ≠ Synchronous.Polling)
  ∧ (∀ n fuel,
       limit ≤ Synchronous.clock w (S n) - Synchronous.clock w 0 →
       (∀ k, (1 ≤ k ≤ n)%nat →
             Synchronous.listing_pass w k (src_path event) = Synchronous.Ok false) →
       (n < fuel)%nat →
       Synchronous.outcome_of (run fuel) = Synchronous.Returned false).
Proof.
  intros limit run.
  assert (∀ fuel, run fuel =
            if negb (is_directory event)
            then Synchronous.mk_run (Synchronous.Returned false) []
            else if negb (Synchronous.path_exists w (src_path event))
                 then Synchronous.mk_run (Synchronous.Returned false) []
                 else Synchronous.poll fuel w (src_path event)
                        (Synchronous.clock w 0) limit 1 []) as Hrun
    by (intros fuel; subst run; by destruct cls).
  split; [|split]; intros; rewrite Hrun;
    destruct (negb (is_directory event)); simpl; try done;
    destruct (negb (Synchronous.path_exists w (src_path event))); simpl; try done.
  - by apply poll_passes_below_limit.
  - by apply (poll_terminates _ _ _ _ n).
  - apply (poll_rejects _ _ _ _ n); [done | | done].
    intros k Hk. match goal with Hnone : ∀ k, _ → _ = _ |- _ => apply Hnone end. lia.
Qed.

Lemma polling_bounded_by_limit_witness :
  Synchronous.outcome_of
    (Synchronous.validate Synchronous.TestDataEventHandler sample_handler
       folder_event None 2 ticking_world)
  = Synchronous.Returned false.
Proof.
  apply (proj2 (proj2 (polling_bounded_by_limit
                         Synchronous.TestDataEventHandler sample_handler
                         folder_event None ticking_world)) 1%nat 2%nat).
  - by vm_compute.
  - intros k Hk. reflexivity.
  - lia.
Defined.

(** The literal reading fails for a timeout of zero: [0 or
    self.validation_timeout] is the handler's own timeout, so a pass starts
    although the elapsed time is not below the timeout handed in. *)
Lemma polling_as_stated_fails : ¬ polling_as_stated.
Proof.
  intros H.
  destruct (H Synchronous.LastShotEventHandler sample_handler folder_event 0
              ticking_world) as [Hpasses _].
  specialize (Hpasses 3%nat). vm_compute in Hpasses.
  inversion Hpasses as [|? ? Hhead _]. discriminate Hhead.
Qed.

(** * Further properties of the validators *)

(** ** The first-failure run *)

(** The log only grows by the operations of the checks, and the verdict does
    not depend on it. *)
Lemma first_failure_log (self : FileValidatorConfig) (fs : FS) (path : Path)
    (cs : list check) (l : list op) :
  first_failure self fs path cs l =
  ((first_failure self fs path cs []).1, l ++ (first_failure self fs path cs []).2).
Proof.
  revert l. induction cs as [|c cs IH]; intros l; cbn [first_failure].
  - by rewrite app_nil_r.
  - destruct (check_failure self fs path c); cbn [fst snd app]; [done |].
    rewrite (IH (l ++ _)), (IH (check_ops _ _ _)). cbn [fst snd].
    by rewrite app_assoc.
Qed.

(** No failure is reported exactly when every check passes. *)
Lemma first_failure_none_iff (self : FileValidatorConfig) (fs : FS) (path : Path)
    (cs : list check) (l : list op) :
  (first_failure self fs path cs l).1 = None
  ↔ ∀ c, c ∈ cs → check_failure self fs path c = None.
Proof.
  revert l. induction cs as [|c cs IH]; intros l; cbn [first_failure].
  - split; [intros _ c Hc; by apply elem_of_nil in Hc | done].
  - destruct (check_failure self fs path c) eqn:Hc; cbn [fst].
    + split; [done |]. intros Hall.
      rewrite (Hall c) in Hc by apply list_elem_of_here. done.
    + rewrite IH. split.
      * intros Hall c' [-> | Hc']%elem_of_cons; [done | by apply Hall].
      * intros Hall c' Hc'. by apply Hall, list_elem_of_further.
Qed.

(** ** Acceptance, said at once *)

(** [FileValidator.validate] on an unchanging filesystem, in one equation. *)
Lemma FileValidator_static (self : FileValidatorConfig) (path_input : string)
    (fs : FS) (l : list op) :
  FileValidator_validate self path_input (static fs) l =
  match first_failure self fs (Pathlib.parse path_input) file_checks l with
  | (Some reason, ops) => (Ret (false, error_info reason), ops)
  | (None, ops) => (Ret (true, file_info self fs (Pathlib.parse path_input)), ops)
  end.
Proof.
  unfold FileValidator_validate. cbv zeta.
  generalize (Pathlib.parse path_input) as path. intros path.
  change file_checks with ([CheckExists; CheckIsFile] ++ common_checks
                           ++ [CheckSizeMin; CheckSizeMax]).
  unfold path_exists, path_is_file, observe, bind at 1 2, static, file_info.
  cbn [app first_failure check_failure check_ops].
  destruct (fs !! Pathlib.str path) as [st|] eqn:E; cbn [negb]; [|done].
  rewrite bool_decide_eq_true_2 by eauto. cbn [negb]. rewrite E.
  destruct (decide (st_kind st = RegularFile)) as [Hk|Hk].
  2: { rewrite bool_decide_eq_false_2 by done. reflexivity. }
  rewrite bool_decide_eq_true_2 by done. cbn [negb].
  unfold bind at 1. rewrite (validate_common_first_failure self fs path st) by done.
  rewrite first_failure_app.
  destruct (first_failure self fs path common_checks _) as [[reason|] ops];
    cbn [fst snd negb]; [done |].
  unfold bind, path_stat, observe, static, unless, violated, ret, dict_update.
  rewrite E. cbn [first_failure check_failure check_ops]. rewrite E. cbn.
  destruct (filesize_min self) as [lo|]; cbn;
    [destruct (st_size st <? lo); cbn; [by rewrite ?app_nil_r |] |];
    (destruct (filesize_max self) as [hi|]; cbn;
     [destruct (hi <? st_size st); cbn |]);
    rewrite ?app_nil_r, ?(right_id_L ∅ (∪)); reflexivity.
Qed.

(** [FolderValidator.validate] on an unchanging filesystem: the two tests of
    its own, then the common checks. *)
Lemma FolderValidator_static (self : BaseValidatorConfig) (path_input : string)
    (fs : FS) (l : list op) :
  let path := Pathlib.parse path_input in
  let after := (l ++ [OpExists (Pathlib.str path)]) ++ [OpIsDir (Pathlib.str path)] in
  FolderValidator_validate self path_input (static fs) l =
  match fs !! Pathlib.str path with
  | None => (Ret (false, error_info (msg_not_exist path)),
             l ++ [OpExists (Pathlib.str path)])
  | Some st =>
      if decide (st_kind st = Directory) then
        match first_failure (without_size self) fs path common_checks after with
        | (Some reason, ops) => (Ret (false, error_info reason), ops)
        | (None, ops) => (Ret (true, common_info (without_size self) st), ops)
        end
      else (Ret (false, error_info (msg_not_folder path)), after)
  end.
Proof.
  unfold FolderValidator_validate. cbv zeta.
  generalize (Pathlib.parse path_input) as path. intros path.
  unfold path_exists, path_is_dir, observe, bind at 1 2, static.
  destruct (fs !! Pathlib.str path) as [st|] eqn:E; cbn [negb]; [|done].
  rewrite bool_decide_eq_true_2 by eauto. cbn [negb]. rewrite E.
  destruct (decide (st_kind st = Directory)) as [Hk|Hk].
  2: { rewrite bool_decide_eq_false_2 by done. reflexivity. }
  rewrite bool_decide_eq_true_2 by done. cbn [negb].
  unfold bind.
  rewrite (validate_common_first_failure (without_size self) fs path st) by done.
  destruct (first_failure _ fs path common_checks _) as [[reason|] ops];
    cbn [fst snd negb]; [done |].
  unfold ret, dict_update. by rewrite (right_id_L ∅ (∪)).
Qed.

(** The common checks pass exactly when the common constraints hold. *)
Lemma common_checks_pass_iff (self : FileValidatorConfig) (fs : FS) (path : Path)
    (st : stat_result) :
  fs !! Pathlib.str path = Some st →
  (∀ c, c ∈ common_checks → check_failure self fs path c = None)
  ↔ common_constraints (base self) path st = true.
Proof.
  intros E. unfold common_constraints, common_checks, name_matches,
    not_before, not_after.
  split.
  - intros Hall.
    pose proof (Hall CheckName ltac:(repeat constructor)) as H1.
    pose proof (Hall CheckCreationMin ltac:(repeat constructor)) as H2.
    pose proof (Hall CheckCreationMax ltac:(repeat constructor)) as H3.
    pose proof (Hall CheckModifiedMin ltac:(repeat constructor)) as H4.
    pose proof (Hall CheckModifiedMax ltac:(repeat constructor)) as H5.
    unfold check_failure in *. rewrite E in *. cbn in *.
    destruct (name_pattern (base self)) as [pat|]; cbn in *;
      [destruct (search pat _); [|done] |];
      (destruct (creation_date_min (base self)); cbn in *;
       [destruct (Datetime.ltb _ _); [done |] |]);
      (destruct (creation_date_max (base self)); cbn in *;
       [destruct (Datetime.ltb _ _); [done |] |]);
      (destruct (modified_date_min (base self)); cbn in *;
       [destruct (Datetime.ltb _ _); [done |] |]);
      (destruct (modified_date_max (base self)); cbn in *;
       [destruct (Datetime.ltb _ _); [done |] |]); done.
  - intros Hc c Hin. revert c Hin.
    unfold check_failure. rewrite E. cbn.
    destruct (name_pattern (base self)) as [pat|]; cbn in *;
      [destruct (search pat _); [|done] |];
      (destruct (creation_date_min (base self)); cbn in *;
       [destruct (Datetime.ltb _ _); [done |] |]);
      (destruct (creation_date_max (base self)); cbn in *;
       [destruct (Datetime.ltb _ _); [done |] |]);
      (destruct (modified_date_min (base self)); cbn in *;
       [destruct (Datetime.ltb _ _); [done |] |]);
      (destruct (modified_date_max (base self)); cbn in *;
       [destruct (Datetime.ltb _ _); [done |] |]); by_position.
Qed.

(** All the checks of a file pass exactly when something is found at the path
    and it meets the constraints. *)
Lemma file_checks_pass_iff (self : FileValidatorConfig) (fs : FS) (path : Path) :
  (∀ c, c ∈ file_checks → check_failure self fs path c = None)
  ↔ ∃ st, fs !! Pathlib.str path = Some st ∧ file_constraints self path st = true.
Proof.
  change file_checks with ([CheckExists; CheckIsFile] ++ common_checks
                           ++ [CheckSizeMin; CheckSizeMax]).
  unfold file_constraints, not_before, not_after. split.
  - intros Hall.
    pose proof (Hall CheckExists ltac:(repeat constructor)) as H1.
    pose proof (Hall CheckIsFile ltac:(repeat constructor)) as H2.
    pose proof (Hall CheckSizeMin
                  ltac:(unfold common_checks; cbn; repeat constructor)) as H3.
    pose proof (Hall CheckSizeMax
                  ltac:(unfold common_checks; cbn; repeat constructor)) as H4.
    unfold check_failure in H1, H2, H3, H4.
    destruct (fs !! Pathlib.str path) as [st|] eqn:E; [|done].
    exists st. split; [done |].
    destruct (decide (st_kind st = RegularFile)) as [Hk|]; [|done].
    rewrite (bool_decide_eq_true_2 _ Hk).
    rewrite (proj1 (common_checks_pass_iff self fs path st E)).
    2: { intros c Hc. apply Hall. rewrite !elem_of_app. by right; left. }
    cbn in H3, H4. cbn.
    destruct (filesize_min self) as [lo|]; cbn in *;
      [destruct (st_size st <? lo); [done |] |];
      (destruct (filesize_max self) as [hi|]; cbn in *;
       [destruct (hi <? st_size st); [done |] |]);
      done.
  - intros (st & E & Hc) c.
    apply andb_true_iff in Hc as [Hc Hmax].
    apply andb_true_iff in Hc as [Hc Hmin].
    apply andb_true_iff in Hc as [Hk Hcommon].
    apply bool_decide_eq_true_1 in Hk.
    rewrite !elem_of_app. intros [Hin | [Hin | Hin]].
    + revert c Hin. unfold check_failure. rewrite E.
      destruct (decide (st_kind st = RegularFile)); [|done]. by_position.
    + by apply (proj2 (common_checks_pass_iff self fs path st E)).
    + revert c Hin. unfold check_failure. rewrite E. cbn.
      destruct (filesize_min self) as [lo|]; cbn in *;
        [destruct (st_size st <? lo); [done |] |];
        (destruct (filesize_max self) as [hi|]; cbn in *;
         [destruct (hi <? st_size st); [done |] |]); by_position.
Qed.

(** A file is accepted exactly when it is there and meets the constraints. *)
Lemma file_accepted_static (self : FileValidatorConfig) (path_input : string)
    (fs : FS) (l : list op) :
  accepted (FileValidator_validate self path_input (static fs) l)
  ↔ ∃ st, fs !! Pathlib.str (Pathlib.parse path_input) = Some st
          ∧ file_constraints self (Pathlib.parse path_input) st = true.
Proof.
  rewrite FileValidator_static, <- file_checks_pass_iff,
    <- (first_failure_none_iff _ _ _ _ l).
  unfold accepted.
  destruct (first_failure _ _ _ _ _) as [[reason|] ops]; cbn [fst].
  - split; [intros [? [=]] | done].
  - split; [done | eauto].
Qed.

(** A folder is accepted exactly when it is there and meets the constraints. *)
Lemma folder_accepted_static (self : BaseValidatorConfig) (path_input : string)
    (fs : FS) (l : list op) :
  accepted (FolderValidator_validate self path_input (static fs) l)
  ↔ ∃ st, fs !! Pathlib.str (Pathlib.parse path_input) = Some st
          ∧ folder_constraints self (Pathlib.parse path_input) st = true.
Proof.
  rewrite FolderValidator_static. cbv zeta. unfold accepted, folder_constraints.
  destruct (fs !! _) as [st|] eqn:E; cbn [fst].
  2: { split; [intros [? [=]] | intros (? & [=] & _)]. }
  destruct (decide (st_kind st = Directory)) as [Hk|Hk].
  - pose proof (common_checks_pass_iff (without_size self) fs _ st E) as Hiff.
    rewrite <- (first_failure_none_iff _ _ _ _
                  ((l ++ [OpExists (Pathlib.str (Pathlib.parse path_input))])
                   ++ [OpIsDir (Pathlib.str (Pathlib.parse path_input))])) in Hiff.
    cbn [base without_size] in Hiff.
    destruct (first_failure _ _ _ _ _) as [[reason|] ops]; cbn [fst] in *.
    + split; [intros [? [=]] |]. intros (st' & [= <-] & Hc).
      apply andb_true_iff in Hc as [_ Hc]. by apply Hiff in Hc.
    + split; [|eauto]. intros _. exists st. split; [done |].
      rewrite (bool_decide_eq_true_2 _ Hk). by apply Hiff.
  - cbn [fst]. split; [intros [? [=]] |]. intros (st' & [= <-] & Hc).
    apply andb_true_iff in Hc as [Hd _]. by apply bool_decide_eq_true_1 in Hd.
Qed.



(** X2. Whatever their configurations, a [FileValidator] and a
    [FolderValidator] never both accept the same path of the same
    filesystem. *)
Theorem file_and_folder_never_both_accept (self_file : FileValidatorConfig)
    (self_folder : BaseValidatorConfig) (path_input : string) (fs : FS)
    (l l' : list op) :
  accepted (FileValidator_validate self_file path_input (static fs) l) →
  ¬ accepted (FolderValidator_validate self_folder path_input (static fs) l').
Proof.
  intros (st & E & Hf)%file_accepted_static (st' & E' & Hd)%folder_accepted_static.
  rewrite E in E'. injection E' as <-.
  unfold file_constraints in Hf. unfold folder_constraints in Hd.
  apply andb_true_iff in Hd as [Hd _]. apply bool_decide_eq_true_1 in Hd.
  destruct (decide (st_kind st = RegularFile)) as [Hk|Hk].
  - congruence.
  - by rewrite (bool_decide_eq_false_2 _ Hk) in Hf.
Qed.

Lemma file_and_folder_never_both_accept_witness :
  ¬ accepted (FolderValidator_validate (base (report_validator 1000 2000))
                "/data/report.txt" (static (sample_fs 1500)) []).
Proof.
  apply (file_and_folder_never_both_accept (report_validator 1000 2000)
           (base (report_validator 1000 2000)) "/data/report.txt"
           (sample_fs 1500) [] []).
  apply file_accepted_static.
  exists (sample_stat RegularFile 1500). split; by vm_compute.
Defined.




(** ** Lookups that fail *)

(** Two computations that agree step by step agree as a whole. *)
Lemma bind_agree {A B} (m m' : M A) (k k' : A → M B) (w : Timeline) :
  (∀ l, m w l = m' w l) →
  (∀ a l, k a w l = k' a w l) →
  ∀ l, bind m k w l = bind m' k' w l.
Proof.
  intros Hm Hk l. unfold bind. rewrite Hm.
  destruct (m' w l) as [[a|e] l']; [apply Hk | done].
Qed.

Section Plain.

Context (failure : nat → string → Z) (w : Timeline) (path : Path).
Hypothesis Hplain : Errno.plain failure w (Pathlib.str path).

Lemma path_exists_plain (l : list op) :
  Errno.path_exists failure path w l = path_exists path w l.
Proof.
  unfold Errno.path_exists, Errno.lookup, path_exists, observe.
  destruct (w _ !! _) eqn:E; [done |].
  unfold Errno.absent_or_raise. by rewrite (Hplain _ E).
Qed.

Lemma path_is_file_plain (l : list op) :
  Errno.path_is_file failure path w l = path_is_file path w l.
Proof.
  unfold Errno.path_is_file, Errno.lookup, path_is_file, observe.
  destruct (w _ !! _) eqn:E; [done |].
  unfold Errno.absent_or_raise. by rewrite (Hplain _ E).
Qed.

Lemma path_is_dir_plain (l : list op) :
  Errno.path_is_dir failure path w l = path_is_dir path w l.
Proof.
  unfold Errno.path_is_dir, Errno.lookup, path_is_dir, observe.
  destruct (w _ !! _) eqn:E; [done |].
  unfold Errno.absent_or_raise. by rewrite (Hplain _ E).
Qed.

Lemma path_stat_plain (l : list op) :
  Errno.path_stat failure path w l = path_stat path w l.
Proof.
  unfold Errno.path_stat, Errno.lookup, path_stat, observe.
  destruct (w _ !! _) eqn:E; [done |].
  by rewrite (Hplain _ E).
Qed.

Lemma unless_agree (guard : option string) (k k' : M (bool * dict)) :
  (∀ l, k w l = k' w l) → ∀ l, unless guard k w l = unless guard k' w l.
Proof. intros Hk l. destruct guard; [done | apply Hk]. Qed.

Lemma validate_common_plain (self : BaseValidatorConfig) (l : list op) :
  Errno.validate_common failure self path w l = validate_common self path w l.
Proof.
  unfold Errno.validate_common, validate_common, Errno.get_creation_time,
    get_creation_time.
  cbv beta zeta.
  destruct (name_pattern self) as [pat|];
    [apply bind_agree; [done |]; intros [] l1; cbn [negb]; [| done] |];
    (apply bind_agree; [apply bind_agree; [apply path_stat_plain | done] |];
     intros t l2; do 2 apply unless_agree;
     apply bind_agree; [apply path_stat_plain | done]).
Qed.

Lemma FileValidator_plain (self : FileValidatorConfig) (path_input : string)
    (l : list op) :
  path = Pathlib.parse path_input →
  Errno.FileValidator_validate failure self path_input w l
  = FileValidator_validate self path_input w l.
Proof.
  intros Hpath. unfold Errno.FileValidator_validate, FileValidator_validate.
  cbv zeta. rewrite <- Hpath.
  apply bind_agree; [apply path_exists_plain |]. intros [] l1; cbn [negb]; [|done].
  apply bind_agree; [apply path_is_file_plain |]. intros [] l2; cbn [negb]; [|done].
  apply bind_agree; [apply validate_common_plain |].
  intros [[] info] l3; cbn [negb fst snd]; [|done].
  apply bind_agree; [apply path_stat_plain | done].
Qed.

Lemma FolderValidator_plain (self : BaseValidatorConfig) (path_input : string)
    (l : list op) :
  path = Pathlib.parse path_input →
  Errno.FolderValidator_validate failure self path_input w l
  = FolderValidator_validate self path_input w l.
Proof.
  intros Hpath. unfold Errno.FolderValidator_validate, FolderValidator_validate.
  cbv zeta. rewrite <- Hpath.
  apply bind_agree; [apply path_exists_plain |]. intros [] l1; cbn [negb]; [|done].
  apply bind_agree; [apply path_is_dir_plain |]. intros [] l2; cbn [negb]; [|done].
  apply bind_agree; [apply validate_common_plain |].
  by intros [[] info] l3; cbn [negb fst snd].
Qed.

End Plain.

(** An error number that [exists] does not take for absence is not
    [ENOENT]: the exception is a plain [OSError]. *)
Lemma os_error_not_ignored (errno : Z) (filename : string) :
  Errno._ignore_error errno = false →
  Errno.os_error errno filename = OSError errno filename.
Proof.
  unfold Errno._ignore_error, Errno.os_error, Errno._IGNORED_ERRNOS.
  intros Hno. destruct (decide (errno = Errno.ENOENT)) as [-> | Hne].
  - by vm_compute in Hno.
  - by rewrite bool_decide_eq_false_2.
Qed.

(** Where something exists, no lookup fails on an unchanging filesystem. *)
Lemma found_is_plain (failure : nat → string → Z) (fs : FS) (p : string)
    (st : stat_result) :
  fs !! p = Some st → Errno.plain failure (static fs) p.
Proof. intros E k E'. unfold static in E'. congruence. Qed.

(** X4. Whatever [FileValidator.validate] and [FolderValidator.validate]
    return on an unchanging filesystem has a fixed shape, also where lookups
    can fail with any error number. A rejection is a map with the single
    entry ["error"]; an acceptance has no ["error"] entry and reports the
    creation time (the birth time where there is one, the change time
    otherwise) and the modification time of what was found, and for a file
    its size. *)
Theorem validation_results_have_a_fixed_shape (failure : nat → string → Z)
    (self_file : FileValidatorConfig) (self_folder : BaseValidatorConfig)
    (path_input : string) (fs : FS) (l : list op) :
  let here := Pathlib.str (Pathlib.parse path_input) in
  match (Errno.FileValidator_validate failure self_file path_input (static fs) l).1 with
  | Ret (true, info) =>
      ∃ st, fs !! here = Some st
            ∧ info !! "error" = None
            ∧ info !! "filesize" = Some (VInt (st_size st))
            ∧ info !! "creation_time"
              = Some (VDatetime (default (st_ctime st) (st_birthtime st)))
            ∧ info !! "modified_time" = Some (VDatetime (st_mtime st))
  | Ret (false, info) => ∃ reason, info = {[ "error" := VStr reason ]}
  | Raise _ => True
  end
  ∧ match (Errno.FolderValidator_validate failure self_folder path_input (static fs) l).1 with
    | Ret (true, info) =>
        ∃ st, fs !! here = Some st
              ∧ info !! "error" = None
              ∧ info !! "filesize" = None
              ∧ info !! "creation_time"
                = Some (VDatetime (default (st_ctime st) (st_birthtime st)))
              ∧ info !! "modified_time" = Some (VDatetime (st_mtime st))
    | Ret (false, info) => ∃ reason, info = {[ "error" := VStr reason ]}
    | Raise _ => True
    end.
Proof.
  cbv zeta.
  destruct (fs !! Pathlib.str (Pathlib.parse path_input)) as [found|] eqn:E.
  2: { unfold Errno.FileValidator_validate, Errno.FolderValidator_validate, bind,
         Errno.path_exists, Errno.lookup, Errno.absent_or_raise, static.
       rewrite E. destruct (Errno._ignore_error _); cbn; [|done].
       split; by eexists. }
  pose proof (found_is_plain failure _ _ _ E) as Hplain.
  rewrite (FileValidator_plain failure (static fs) _ Hplain _ _ _ eq_refl).
  rewrite (FolderValidator_plain failure (static fs) _ Hplain _ _ _ eq_refl).
  split.
  - rewrite FileValidator_static.
    destruct (first_failure _ _ _ _ _) as [[reason|] ops] eqn:Hff; cbn [fst].
    + by exists reason.
    + exists found. unfold file_info. rewrite E.
      unfold common_info, creation_time_of.
      destruct (name_pattern (base self_file)); by simplify_map_eq.
  - rewrite FolderValidator_static. cbv zeta. rewrite E.
    destruct (decide (st_kind found = Directory)); cbn [fst]; [|by eexists].
    destruct (first_failure _ _ _ _ _) as [[reason|] ops]; cbn [fst].
    + by exists reason.
    + exists found. unfold common_info, creation_time_of. cbn [base without_size].
      destruct (name_pattern self_folder); by simplify_map_eq.
Qed.

(** X20. When nothing exists at the path at the moment [validate] looks and
    the lookup fails with an error number that [exists] does not take for
    absence (a name that is too long, a directory that may not be searched),
    [FileValidator.validate] and [FolderValidator.validate] raise that
    [OSError] out of the existence test, whatever their configuration: no
    rejection is returned and nothing else is looked at. *)
Theorem refused_lookup_raises (failure : nat → string → Z)
    (path_input : string) (w : Timeline) (l : list op) :
  let here := Pathlib.str (Pathlib.parse path_input) in
  w (List.length l) !! here = None →
  Errno._ignore_error (failure (List.length l) here) = false →
  let refusal : result (bool * dict) * list op :=
    (Raise (OSError (failure (List.length l) here) here), l ++ [OpExists here]) in
  (∀ self, Errno.FileValidator_validate failure self path_input w l = refusal)
  ∧ (∀ self, Errno.FolderValidator_validate failure self path_input w l = refusal).
Proof.
  cbv zeta. intros Hnone Hrefused.
  split; intros self.
  - unfold Errno.FileValidator_validate, bind, Errno.path_exists, Errno.lookup,
      Errno.absent_or_raise.
    by rewrite Hnone, Hrefused, os_error_not_ignored.
  - unfold Errno.FolderValidator_validate, bind, Errno.path_exists, Errno.lookup,
      Errno.absent_or_raise.
    by rewrite Hnone, Hrefused, os_error_not_ignored.
Qed.

Lemma refused_lookup_raises_witness :
  Errno.FolderValidator_validate (λ _ _, Errno.EACCES)
    (mk_BaseValidator None None None None None) "/root/shots"
    (static (sample_fs 1500)) []
  = (Raise (OSError Errno.EACCES "/root/shots"), [OpExists "/root/shots"]).
Proof.
  apply (proj2 (refused_lookup_raises (λ _ _, Errno.EACCES) "/root/shots"
                  (static (sample_fs 1500)) [] eq_refl eq_refl)).
Defined.





(** Dropping constraints keeps the common constraints met. *)
Lemma relaxed_common_constraints (self' self : BaseValidatorConfig) (path : Path)
    (st : stat_result) :
  relaxed_base self' self →
  common_constraints self path st = true →
  common_constraints self' path st = true.
Proof.
  unfold relaxed_base, common_constraints, name_matches, looser.
  intros (Hn & H1 & H2 & H3 & H4) Hc.
  repeat (apply andb_true_iff in Hc as [Hc ?]).
  destruct Hn as [-> | ->], H1 as [-> | ->], H2 as [-> | ->],
    H3 as [-> | ->], H4 as [-> | ->]; cbn [not_before not_after];
    repeat (apply andb_true_iff; split); done.
Qed.

(** X6. Dropping constraints never turns an acceptance into a rejection:
    what a [FileValidator] (a [FolderValidator]) accepts is accepted by every
    validator of the same class configured with some of its pattern and
    bounds and without the others. *)
Theorem dropping_constraints_keeps_acceptance (path_input : string) (fs : FS)
    (l l' : list op) :
  (∀ self' self,
     relaxed self' self →
     accepted (FileValidator_validate self path_input (static fs) l) →
     accepted (FileValidator_validate self' path_input (static fs) l'))
  ∧ (∀ self' self,
       relaxed_base self' self →
       accepted (FolderValidator_validate self path_input (static fs) l) →
       accepted (FolderValidator_validate self' path_input (static fs) l')).
Proof.
  split; intros self' self Hrel.
  - intros (st & E & Hc)%file_accepted_static. apply file_accepted_static.
    exists st. split; [done |]. destruct Hrel as (Hbase & Hmin & Hmax).
    unfold file_constraints in *.
    repeat (apply andb_true_iff in Hc as [Hc ?]).
    rewrite Hc, (relaxed_common_constraints _ _ _ _ Hbase) by done.
    destruct Hmin as [-> | ->], Hmax as [-> | ->]; cbn [not_before not_after andb];
      repeat (apply andb_true_iff; split); done.
  - intros (st & E & Hc)%folder_accepted_static. apply folder_accepted_static.
    exists st. split; [done |]. unfold folder_constraints in *.
    apply andb_true_iff in Hc as [Hk Hc].
    by rewrite Hk, (relaxed_common_constraints _ _ _ _ Hrel).
Qed.

Lemma dropping_constraints_keeps_acceptance_witness :
  accepted
    (FileValidator_validate
       (mk_FileValidator (mk_BaseValidator None None None None None) (Some 1000) None)
       "/data/report.txt" (static (sample_fs 1500)) []).
Proof.
  apply (proj1 (dropping_constraints_keeps_acceptance "/data/report.txt"
                  (sample_fs 1500) [] [])
           (mk_FileValidator (mk_BaseValidator None None None None None)
              (Some 1000) None)
           (report_validator 1000 2000)).
  - repeat split; first [ by left | by right ].
  - apply file_accepted_static.
    exists (sample_stat RegularFile 1500). split; by vm_compute.
Defined.

(** ** Validators that only look at the filesystem *)

(** Induction on a validator and, for a composite, on its members. *)
Lemma Validator_nested_ind (P : Validator → Prop) :
  (∀ self, P (FileValidator self)) →
  (∀ self, P (FolderValidator self)) →
  (∀ validators, Forall P validators → P (CompositeValidator validators)) →
  (∀ method, P (OtherValidator method)) →
  ∀ v, P v.
Proof.
  intros Hfile Hfolder Hcomposite Hother. fix IH 1.
  intros [self|self|validators|method];
    [apply Hfile | apply Hfolder | apply Hcomposite | apply Hother].
  revert validators. fix IHvs 1.
  intros [|v validators]; constructor; [apply IH | apply IHvs].
Qed.

Lemma settled_ret {A} (fs : FS) (a : A) : settled fs (ret a).
Proof. exists a, []. intros l. by rewrite app_nil_r. Qed.

Lemma settled_bind {A B} (fs : FS) (m : M A) (k : A → M B) (a : A) (ops : list op) :
  (∀ l, m (static fs) l = (Ret a, l ++ ops)) →
  settled fs (k a) →
  settled fs (bind m k).
Proof.
  intros Hm (b & ops' & Hk). exists b, (ops ++ ops'). intros l.
  unfold bind. by rewrite Hm, Hk, app_assoc.
Qed.

Lemma FileValidator_settled (fs : FS) (self : FileValidatorConfig)
    (path_input : string) :
  settled fs (FileValidator_validate self path_input).
Proof.
  destruct (first_failure self fs (Pathlib.parse path_input) file_checks [])
    as [verdict ops] eqn:Hff.
  exists (match verdict with
          | Some reason => (false, error_info reason)
          | None => (true, file_info self fs (Pathlib.parse path_input))
          end), ops.
  intros l. rewrite FileValidator_static, first_failure_log, Hff. cbn [fst snd].
  by destruct verdict.
Qed.

Lemma FolderValidator_settled (fs : FS) (self : BaseValidatorConfig)
    (path_input : string) :
  settled fs (FolderValidator_validate self path_input).
Proof.
  unfold settled. setoid_rewrite FolderValidator_static. cbv zeta.
  destruct (fs !! _) as [st|]; [|by eexists _, [_]].
  destruct (decide (st_kind st = Directory)).
  - destruct (first_failure (without_size self) fs (Pathlib.parse path_input)
                common_checks []) as [verdict ops] eqn:Hff.
    exists (match verdict with
            | Some reason => (false, error_info reason)
            | None => (true, common_info (without_size self) st)
            end),
      ([OpExists (Pathlib.str (Pathlib.parse path_input));
        OpIsDir (Pathlib.str (Pathlib.parse path_input))] ++ ops).
    intros l. rewrite first_failure_log, Hff. cbn [fst snd].
    rewrite <- !app_assoc. by destruct verdict.
  - eexists _, [_; _]. intros l. by rewrite <- app_assoc.
Qed.

Lemma composite_loop_settled (fs : FS) (path_input : string)
    (validators : list Validator) :
  Forall (λ v, settled fs (validate v path_input)) validators →
  ∀ index combined_info,
    settled fs (composite_loop validate path_input validators index combined_info).
Proof.
  induction 1 as [|v validators (a & ops & Hv) _ IH]; intros index combined_info;
    cbn [composite_loop].
  - apply settled_ret.
  - apply (settled_bind fs _ _ tt [OpValidate index path_input]); [done |].
    apply (settled_bind fs _ _ a ops); [done |].
    destruct (negb a.1); [apply settled_ret | apply IH].
Qed.

(** A validator made of the module's classes is settled on an unchanging
    filesystem. *)
Lemma builtin_settled (fs : FS) (path_input : string) (v : Validator) :
  builtin v = true → settled fs (validate v path_input).
Proof.
  induction v as [self|self|validators IH|method] using Validator_nested_ind;
    cbn [builtin validate]; intros Hb.
  - apply FileValidator_settled.
  - apply FolderValidator_settled.
  - apply composite_loop_settled.
    rewrite forallb_forall in Hb. rewrite Forall_forall in *.
    intros v Hv. apply IH; [done |]. by apply Hb, list_elem_of_In.
  - done.
Qed.

(** ** Composites of any length *)

(** The loop over a list in two parts: the second part runs only after the
    first has accepted, from the map and the log the first leaves. *)
Lemma composite_loop_app (call : Validator → string → M (bool * dict))
    (path_input : string) (vs1 vs2 : list Validator) (w : Timeline) :
  ∀ index combined_info l,
    composite_loop call path_input (vs1 ++ vs2) index combined_info w l =
    match composite_loop call path_input vs1 index combined_info w l with
    | (Ret (true, combined), l') =>
        composite_loop call path_input vs2 (index + List.length vs1)%nat combined w l'
    | stopped => stopped
    end.
Proof.
  induction vs1 as [|v vs1 IH]; intros index combined_info l.
  - cbn [app composite_loop List.length]. unfold ret. by rewrite Nat.add_0_r.
  - cbn [app composite_loop List.length]. unfold bind, record, ret.
    destruct (call v path_input w _) as [[[[] info]|e] l']; cbn [fst snd negb];
      [|done..].
    rewrite IH. by replace (index + S (List.length vs1))%nat
                  with (S index + List.length vs1)%nat by lia.
Qed.

(** X8. A composite stops at the first member that does not accept: if the
    composite of [vs1] rejects or raises, the composite of [vs1 ++ vs2] gives
    the very same result and log of operations, whatever [vs2] holds, so no
    member of [vs2] is called. *)
Theorem composite_stops_at_first_failure (vs1 vs2 : list Validator)
    (path_input : string) (w : Timeline) (l : list op) :
  ¬ accepted (CompositeValidator_validate vs1 path_input w l) →
  CompositeValidator_validate (vs1 ++ vs2) path_input w l
  = CompositeValidator_validate vs1 path_input w l.
Proof.
  unfold CompositeValidator_validate, accepted. cbn [validate].
  rewrite composite_loop_app.
  destruct (composite_loop validate path_input vs1 0 ∅ w l)
    as [[[[] info]|e] l']; cbn [fst]; [|done..].
  intros []. eauto.
Qed.

Lemma composite_stops_at_first_failure_witness :
  CompositeValidator_validate
    ([first_validator; rejecting_validator] ++ [second_validator])
    "/data/x" (static ∅) []
  = CompositeValidator_validate [first_validator; rejecting_validator]
      "/data/x" (static ∅) [].
Proof.
  apply (composite_stops_at_first_failure [first_validator; rejecting_validator]
           [second_validator] "/data/x" (static ∅) []).
  intros [info Hinfo]. apply (f_equal (λ r : result (bool * dict),
                      match r with Ret (b, _) => b | Raise _ => false end))
      in Hinfo.
    vm_compute in Hinfo. discriminate Hinfo.
Defined.

(** The loop over settled members accepts exactly when each member does, and
    then returns the members' maps laid over the map it started from, later
    maps over earlier ones. *)
Lemma composite_loop_static (fs : FS) (path_input : string)
    (validators : list Validator) :
  Forall (λ v, settled fs (validate v path_input)) validators →
  ∀ index combined_info l,
    (accepted (composite_loop validate path_input validators index combined_info
                 (static fs) l)
     ↔ Forall (λ v, accepted (validate v path_input (static fs) [])) validators)
    ∧ ∀ merged,
        (composite_loop validate path_input validators index combined_info
           (static fs) l).1 = Ret (true, merged) →
        (∀ k, is_Some (combined_info !! k) → is_Some (merged !! k))
        ∧ (∀ v info k,
             v ∈ validators →
             (validate v path_input (static fs) []).1 = Ret (true, info) →
             is_Some (info !! k) → is_Some (merged !! k))
        ∧ (∀ v info k x,
             last validators = Some v →
             (validate v path_input (static fs) []).1 = Ret (true, info) →
             info !! k = Some x → merged !! k = Some x).
Proof.
  induction 1 as [|v validators Hv Hvs IH]; intros index combined_info l.
  - cbn [composite_loop]. unfold accepted, ret.
    cbn [fst]. split; [split; eauto |].
    intros merged [= <-]. split; [done |]. split.
    + intros v info k Hin. by apply elem_of_nil in Hin.
    + by intros v info k x [=].
  - destruct Hv as ([b info_v] & ops & Hv).
    assert ((validate v path_input (static fs) []).1 = Ret (b, info_v)) as Hv0
      by (by rewrite Hv).
    assert (composite_loop validate path_input (v :: validators) index
              combined_info (static fs) l
            = if b
              then composite_loop validate path_input validators (S index)
                     (dict_update combined_info info_v) (static fs)
                     ((l ++ [OpValidate index path_input]) ++ ops)
              else (Ret (false, info_v),
                    (l ++ [OpValidate index path_input]) ++ ops)) as ->.
    { cbn [composite_loop]. unfold bind at 1 2, record. rewrite Hv.
      cbn [fst snd]. by destruct b. }
    destruct b.
    + specialize (IH (S index) (dict_update combined_info info_v)
                    ((l ++ [OpValidate index path_input]) ++ ops)).
      destruct IH as [IHacc IHmerge]. split.
      * rewrite IHacc, Forall_cons. unfold accepted at 2. rewrite Hv0.
        split; [eauto | by intros [_ ?]].
      * intros merged Hmerged.
        destruct (IHmerge merged Hmerged) as (Hkeep & Hmembers & Hlast).
        split; [|split].
        -- intros k Hk. apply Hkeep. unfold dict_update.
           rewrite lookup_union. destruct (info_v !! k), Hk as [? ->]; by eexists.
        -- intros v' info k [-> | Hin]%elem_of_cons Hinfo Hk.
           ++ rewrite Hv0 in Hinfo. injection Hinfo as <-.
              apply Hkeep. unfold dict_update. rewrite lookup_union.
              destruct Hk as [? ->]. destruct (combined_info !! k); by eexists.
           ++ by apply (Hmembers v' info).
        -- intros v' info k x Hlast' Hinfo Hk.
           destruct validators as [|v'' validators'].
           ++ injection Hlast' as <-.
              rewrite Hv0 in Hinfo. injection Hinfo as <-.
              cbn [composite_loop] in Hmerged. unfold ret in Hmerged.
              cbn [fst] in Hmerged. injection Hmerged as <-.
              unfold dict_update. rewrite lookup_union, Hk.
              by destruct (combined_info !! k).
           ++ by apply (Hlast v' info).
    + unfold accepted. cbn [fst]. split.
      * split; [intros [? [=]] |]. intros Hall. apply Forall_cons in Hall as [[? Hacc] _].
        rewrite Hv0 in Hacc. discriminate Hacc.
      * intros merged [=].
Qed.

(** X9. A composite of any number of settled validators (such as file,
    folder and composite validators on an unchanging filesystem) accepts a
    path exactly when every member, asked on its own, accepts it. *)
Theorem composite_accepts_iff_every_member_accepts (validators : list Validator)
    (path_input : string) (fs : FS) (l : list op) :
  Forall (λ v, settled fs (validate v path_input)) validators →
  accepted (CompositeValidator_validate validators path_input (static fs) l)
  ↔ Forall (λ v, accepted (validate v path_input (static fs) [])) validators.
Proof.
  intros Hsettled. unfold CompositeValidator_validate. cbn [validate].
  apply (composite_loop_static fs path_input validators Hsettled 0%nat ∅ l).
Qed.

Lemma composite_accepts_iff_every_member_accepts_witness :
  ¬ accepted
      (CompositeValidator_validate
         [FileValidator (report_validator 1000 2000);
          FolderValidator (base (report_validator 1000 2000))]
         "/data/report.txt" (static (sample_fs 1500)) []).
Proof.
  rewrite (composite_accepts_iff_every_member_accepts
             [FileValidator (report_validator 1000 2000);
              FolderValidator (base (report_validator 1000 2000))]
             "/data/report.txt" (sample_fs 1500) []).
  - intros [_ [[info Hinfo] _]%Forall_cons]%Forall_cons.
    apply (f_equal (λ r : result (bool * dict),
                      match r with Ret (b, _) => b | Raise _ => false end))
      in Hinfo.
    vm_compute in Hinfo. discriminate Hinfo.
  - repeat constructor; by apply builtin_settled.
Defined.

(** X10. When a composite of settled validators accepts, the map it returns
    loses no attribute: every key reported by a member is present, and every
    entry of the last member is there unchanged. *)
Theorem composite_keeps_every_attribute (validators : list Validator)
    (path_input : string) (fs : FS) (l : list op) (merged : dict) :
  Forall (λ v, settled fs (validate v path_input)) validators →
  (CompositeValidator_validate validators path_input (static fs) l).1
  = Ret (true, merged) →
  (∀ v info k,
     v ∈ validators →
     (validate v path_input (static fs) []).1 = Ret (true, info) →
     is_Some (info !! k) → is_Some (merged !! k))
  ∧ (∀ v info k x,
       last validators = Some v →
       (validate v path_input (static fs) []).1 = Ret (true, info) →
       info !! k = Some x → merged !! k = Some x).
Proof.
  intros Hsettled Hmerged. unfold CompositeValidator_validate in Hmerged.
  cbn [validate] in Hmerged.
  by destruct (proj2 (composite_loop_static fs path_input validators Hsettled
                        0%nat ∅ l) merged Hmerged) as (_ & Hmembers & Hlast).
Qed.

Lemma composite_keeps_every_attribute_witness :
  is_Some ((first_info ∪ (second_info ∪ ∅ : dict)) !! "new_folder")
  ∧ (first_info ∪ (second_info ∪ ∅ : dict)) !! "k" = Some (VInt 1).
Proof.
  destruct (composite_keeps_every_attribute [second_validator; first_validator]
              "/data/x" ∅ [] (first_info ∪ (second_info ∪ ∅))
              ltac:(repeat constructor; apply settled_ret) eq_refl)
    as [Hmembers Hlast].
  split.
  - apply (Hmembers second_validator second_info);
      [repeat constructor | reflexivity | by eexists].
  - by apply (Hlast first_validator first_info).
Defined.

(** * Further properties of the event processor *)

(** Counting the [task_done] calls of an explicit list. *)
Ltac count_task_done :=
  unfold task_done_count;
  cbn [calls buffer_put sleep call set_fs_log dequeue task_done];
  rewrite ?count_occ_app;
  repeat first [ rewrite count_occ_cons_eq by reflexivity
               | rewrite count_occ_cons_neq by discriminate
               | rewrite count_occ_nil ];
  try lia.

(** One turn of a processor whose validator looks at the path alone. *)
Lemma step_decided (self : EventProcessor) (w : Timeline)
    (verdict : string → bool * dict) (event : Event) (rest : list Event)
    (b : option (list string)) (l : list op) (cs : list queue_call) :
  processor_decides self w verdict →
  ∃ l' cs',
    step self w (mk_State (event :: rest) b l cs)
    = Some (Ret tt,
            mk_State rest
              ((λ items, items ++ from_option (λ x, [x]) [] (resolved verdict event))
                 <$> b) l' cs')
    ∧ task_done_count cs' = S (task_done_count cs).
Proof.
  unfold processor_decides, step, iteration, resolved.
  cbn [event_queue validator fs_log dequeue buffer calls].
  destruct (validator self) as [v|]; intros Hdec.
  - destruct (Hdec (src_path event) l) as [l' ->].
    destruct (verdict (src_path event)) as [[] info]; cbn [negb fst snd].
    + destruct (info !! "new_folder");
        destruct (bool_decide (process_delay self ≠ 0)), b as [items|]; simpl;
        eexists _, _; (split; [reflexivity |]);
        count_task_done.
    + eexists _, _. split.
      * destruct b; simpl; [by rewrite app_nil_r | done].
      * simpl. count_task_done.
  - rewrite Hdec. cbn [fst snd].
    replace ((∅ : dict) !! "new_folder") with (None : option value) by done.
    destruct (bool_decide (process_delay self ≠ 0)), b as [items|]; simpl;
      eexists _, _; (split; [reflexivity |]);
      count_task_done.
Qed.

(** A validator made of the module's classes looks at the path alone, as
    long as the filesystem stays as it is. *)
Lemma builtin_decides (v : Validator) (fs : FS) :
  builtin v = true → decides v (static fs) (static_verdict v fs).
Proof.
  intros Hb p l. destruct (builtin_settled fs p v Hb) as (a & ops & Ha).
  exists (l ++ ops). unfold static_verdict. by rewrite !Ha.
Qed.

(** The loop of such a processor, over a whole queue. *)
Lemma process_events_decided (self : EventProcessor) (w : Timeline)
    (verdict : string → bool * dict) (extra : nat) :
  processor_decides self w verdict →
  ∀ events b l cs,
    ∃ l' cs',
      process_events (S (List.length events) + extra) self w
        (mk_State events b l cs)
      = Suspended (mk_State [] ((λ items, items ++ forwarded verdict events) <$> b)
                     l' cs')
      ∧ task_done_count cs' = (task_done_count cs + List.length events)%nat.
Proof.
  intros Hdec. induction events as [|event rest IH]; intros b l cs.
  - exists l, cs. split; [|cbn [List.length]; lia].
    cbn. destruct b; cbn; by rewrite ?app_nil_r.
  - destruct (step_decided self w verdict event rest b l cs Hdec)
      as (l1 & cs1 & Hstep & Hcount).
    change (S (List.length (event :: rest)) + extra)%nat
      with (S (S (List.length rest) + extra)).
    cbn [process_events]. rewrite Hstep.
    destruct (IH ((λ items, items ++ from_option (λ x, [x]) [] (resolved verdict event))
                    <$> b) l1 cs1) as (l' & cs' & -> & Hcount').
    exists l', cs'. split.
    + do 2 f_equal. unfold forwarded. cbn [omap list_omap].
      destruct b as [items|]; cbn; [|done].
      destruct (resolved verdict event); cbn; by rewrite <- ?app_assoc, ?app_nil_r.
    + cbn [List.length]. lia.
Qed.

(** X11. A processor whose validator looks at the path alone (or that has
    no validator) works the whole queue off, whatever its delay: it issues
    one [task_done] per event and appends to the buffer, in arrival order,
    the resolved path of each accepted event and nothing for a rejected one.
    Without a buffer the events are taken and marked done all the same. *)
Theorem processor_forwards_accepted_paths_in_order (self : EventProcessor)
    (w : Timeline) (verdict : string → bool * dict) (events : list Event)
    (b : option (list string)) (l : list op) (cs : list queue_call)
    (extra : nat) :
  processor_decides self w verdict →
  ∃ st',
    process_events (S (List.length events) + extra) self w (mk_State events b l cs)
    = Suspended st'
    ∧ event_queue st' = []
    ∧ buffer st' = (λ items, items ++ forwarded verdict events) <$> b
    ∧ task_done_count (calls st') = (task_done_count cs + List.length events)%nat.
Proof.
  intros Hdec.
  destruct (process_events_decided self w verdict extra Hdec events b l cs)
    as (l' & cs' & Hrun & Hcount).
  by eexists.
Qed.

Lemma processor_forwards_accepted_paths_in_order_witness :
  ∃ st',
    process_events 4
      (mk_EventProcessor (Some (FileValidator (report_validator 1000 2000))) 5)
      (static (sample_fs 1500))
      (mk_State [mk_Event "/data/other.txt" false;
                 mk_Event "/data/report.txt" false;
                 mk_Event "/data" true] (Some ["earlier"]) [] [])
    = Suspended st'
    ∧ event_queue st' = []
    ∧ buffer st' = Some ["earlier"; "/data/report.txt"]
    ∧ task_done_count (calls st') = 3%nat.
Proof.
  destruct (processor_forwards_accepted_paths_in_order
              (mk_EventProcessor (Some (FileValidator (report_validator 1000 2000))) 5)
              (static (sample_fs 1500))
              (static_verdict (FileValidator (report_validator 1000 2000))
                 (sample_fs 1500))
              [mk_Event "/data/other.txt" false;
               mk_Event "/data/report.txt" false;
               mk_Event "/data" true] (Some ["earlier"]) [] [] 0
              (builtin_decides (FileValidator (report_validator 1000 2000))
                 (sample_fs 1500) eq_refl))
    as (st' & Hrun & Hq & Hb & Hc).
  exists st'. split; [exact Hrun |]. split; [exact Hq |]. split; [|exact Hc].
  rewrite Hb. by vm_compute.
Defined.

(** X12. A validator that raises ends the loop: the exception leaves
    [process_events] at once, the event that was being validated is no longer
    in the queue, no [task_done] and no [put] is issued for it, and the
    events behind it are never looked at. *)
Theorem raising_validator_stops_the_loop (self : EventProcessor) (v : Validator)
    (w : Timeline) (st : State) (event : Event) (rest : list Event) (e : exn)
    (l : list op) (fuel : nat) :
  event_queue st = event :: rest →
  validator self = Some v →
  validate v (src_path event) w (fs_log st) = (Raise e, l) →
  process_events (S fuel) self w st
  = Raised e (mk_State rest (buffer st) l (calls st ++ [QGet event])).
Proof.
  intros Hq Hv Hraise. cbn [process_events]. unfold step, iteration.
  rewrite Hq, Hv. cbn [dequeue fs_log]. by rewrite Hraise.
Qed.

Lemma raising_validator_stops_the_loop_witness :
  process_events 3
    (mk_EventProcessor (Some (FileValidator (report_validator 1000 2000))) 0)
    (λ k, if (k <? 2)%nat then sample_fs 1500 else ∅)
    (mk_State [mk_Event "/data/report.txt" false; mk_Event "/data/next.txt" false]
       (Some []) [] [])
  = Raised (FileNotFoundError "/data/report.txt")
      (mk_State [mk_Event "/data/next.txt" false] (Some [])
         [OpExists "/data/report.txt"; OpIsFile "/data/report.txt";
          OpSearch "report" "report.txt"; OpStat "/data/report.txt"]
         ([] ++ [QGet (mk_Event "/data/report.txt" false)])).
Proof.
  apply (raising_validator_stops_the_loop
           (mk_EventProcessor (Some (FileValidator (report_validator 1000 2000))) 0)
           (FileValidator (report_validator 1000 2000))
           (λ k, if (k <? 2)%nat then sample_fs 1500 else ∅)
           (mk_State [mk_Event "/data/report.txt" false;
                      mk_Event "/data/next.txt" false] (Some []) [] [])
           (mk_Event "/data/report.txt" false) [mk_Event "/data/next.txt" false]);
    [reflexivity | reflexivity | by vm_compute].
Defined.

(** What one turn does to the queues, whatever the validator. *)
Lemma step_queues (self : EventProcessor) (w : Timeline) (st st' : State)
    (r : result unit) :
  step self w st = Some (r, st') →
  (∃ event, event_queue st = event :: event_queue st')
  ∧ ∃ added, buffer st' = (λ items, items ++ added) <$> buffer st
             ∧ (List.length added ≤ 1)%nat.
Proof.
  unfold step, iteration.
  destruct (event_queue st) as [|event rest] eqn:Hq; [done |].
  cbn [dequeue validator fs_log].
  destruct (validator self) as [v|].
  - destruct (validate v (src_path event) w (fs_log st)) as [[[[] info]|e] l].
    + destruct (bool_decide (process_delay self ≠ 0)); simpl;
        destruct (buffer st) eqn:Hb; simpl; intros [= <- <-]; simpl;
        (split; [by eexists |]); rewrite ?Hb;
        first [ exists []; split; [by rewrite ?app_nil_r | simpl; lia]
              | eexists [_]; split; [reflexivity | simpl; lia] ].
    + simpl. intros [= <- <-]. simpl. split; [by eexists |].
      exists []. split; [|simpl; lia]. destruct (buffer st); simpl; by rewrite ?app_nil_r.
    + simpl. intros [= <- <-]. simpl. split; [by eexists |].
      exists []. split; [|simpl; lia]. destruct (buffer st); simpl; by rewrite ?app_nil_r.
  - destruct (bool_decide (process_delay self ≠ 0)); simpl;
      destruct (buffer st) eqn:Hb; simpl; intros [= <- <-]; simpl;
      (split; [by eexists |]); rewrite ?Hb;
      first [ exists []; split; [by rewrite ?app_nil_r | simpl; lia]
            | eexists [_]; split; [reflexivity | simpl; lia] ].
Qed.

(** X13. Whatever the validator does and however the run ends, the loop
    never removes or reorders what is in the buffer: the buffer it leaves is
    the one it found followed by the items it added, at most one per event it
    took from the queue, and a processor without buffer stays without. *)
Theorem buffer_only_grows_at_its_end (self : EventProcessor) (w : Timeline)
    (fuel : nat) (st : State) :
  ∃ added,
    buffer (final_state (process_events fuel self w st))
    = (λ items, items ++ added) <$> buffer st
    ∧ (List.length added
       + List.length (event_queue (final_state (process_events fuel self w st)))
       ≤ List.length (event_queue st))%nat.
Proof.
  revert st. induction fuel as [|fuel IH]; intros st; cbn [process_events].
  - exists []. cbn [final_state]. split; [|simpl; lia].
    destruct (buffer st); simpl; by rewrite ?app_nil_r.
  - destruct (step self w st) as [[r st']|] eqn:Hstep.
    + destruct (step_queues _ _ _ _ _ Hstep) as ([event Hq] & added & Hb & Hlen).
      destruct r as [[]|e].
      * destruct (IH st') as (added' & Hb' & Hlen').
        exists (added ++ added'). split.
        -- rewrite Hb', Hb. destruct (buffer st); simpl; by rewrite ?app_assoc.
        -- rewrite Hq, length_app. simpl. lia.
      * exists added. cbn [final_state]. split; [done |]. rewrite Hq. simpl. lia.
    + exists []. cbn [final_state]. split; [|simpl; lia].
      destruct (buffer st); simpl; by rewrite ?app_nil_r.
Qed.

(** * The consumer loop *)

Lemma taken_app (cs1 cs2 : list consumer_call) :
  taken (cs1 ++ cs2) = taken cs1 ++ taken cs2.
Proof. apply omap_app. Qed.

Lemma called_app (cs1 cs2 : list consumer_call) :
  called (cs1 ++ cs2) = called cs1 ++ called cs2.
Proof. apply omap_app. Qed.

Lemma logged_app (cs1 cs2 : list consumer_call) :
  logged (cs1 ++ cs2) = logged cs1 ++ logged cs2.
Proof. apply omap_app. Qed.

Lemma done_count_app (cs1 cs2 : list consumer_call) :
  done_count (cs1 ++ cs2) = (done_count cs1 + done_count cs2)%nat.
Proof. apply count_occ_app. Qed.

(** What one turn of the consumer adds to its calls. *)
Lemma consumer_step_calls (consume_callback : option (string → callback_outcome))
    (task : string) (rest : list string) (cs : list consumer_call) :
  ∃ delta ending,
    consumer_step consume_callback (mk_ConsumerState (task :: rest) cs)
    = Some (ending, mk_ConsumerState rest (cs ++ delta))
    ∧ taken delta = [task]
    ∧ done_count delta = 1%nat
    ∧ called delta = match consume_callback with Some _ => [task] | None => [] end
    ∧ logged delta
      = match consume_callback with
        | Some callback =>
            match callback task with CallbackRaisesException => [task] | _ => [] end
        | None => []
        end
    ∧ (ending = Propagates
       ↔ ∃ callback, consume_callback = Some callback
                     ∧ callback task = CallbackRaisesBaseException).
Proof.
  unfold consumer_step, consume_one. cbn [task_queue consumer_calls].
  destruct consume_callback as [callback|]; [destruct (callback task) eqn:Hcb |];
    cbn [fst snd]; rewrite <- ?app_assoc; eexists _, _;
    (split; [reflexivity |]); repeat split; try done;
    try (intros (f & [= <-] & Hf); congruence);
    try (intros (f & [=] & _)); eauto.
Qed.

(** X14. Every task the consumer takes is marked done exactly once, however
    the callback ends: on return, after an [Exception] (which is logged, and
    the loop goes on), and even when what the callback raises is not an
    [Exception]; only in that last case does the turn end the loop. *)
Theorem consumer_marks_every_task_done
    (consume_callback : option (string → callback_outcome)) (task : string)
    (rest : list string) (cs : list consumer_call) :
  ∃ delta ending,
    consumer_step consume_callback (mk_ConsumerState (task :: rest) cs)
    = Some (ending, mk_ConsumerState rest (cs ++ delta))
    ∧ done_count delta = 1%nat
    ∧ last delta = Some CTaskDone
    ∧ (ending = Propagates
       ↔ ∃ callback, consume_callback = Some callback
                     ∧ callback task = CallbackRaisesBaseException).
Proof.
  unfold consumer_step, consume_one. cbn [task_queue consumer_calls].
  destruct consume_callback as [callback|]; [destruct (callback task) eqn:Hcb |];
    cbn [fst snd]; rewrite <- ?app_assoc; eexists _, _;
    (split; [reflexivity |]); repeat split; try done;
    try (intros (f & [= <-] & Hf); congruence);
    try (intros (f & [=] & _)); eauto.
Qed.

(** X15. When the callback raises nothing but [Exception]s, the consumer
    works the whole task queue off and then waits: every task is taken and
    handed to the callback in the order of the queue, each is marked done,
    and exactly the tasks on which the callback raised are logged; a raising
    callback stops nothing. *)
Theorem consumer_drains_the_queue_in_order
    (consume_callback : option (string → callback_outcome))
    (tasks : list string) (cs : list consumer_call) (extra : nat) :
  (∀ callback task,
     consume_callback = Some callback → task ∈ tasks →
     callback task ≠ CallbackRaisesBaseException) →
  ∃ delta,
    _consume_task_queue (S (List.length tasks) + extra) consume_callback
      (mk_ConsumerState tasks cs)
    = ConsumerSuspended (mk_ConsumerState [] (cs ++ delta))
    ∧ taken delta = tasks
    ∧ done_count delta = List.length tasks
    ∧ called delta = match consume_callback with Some _ => tasks | None => [] end
    ∧ logged delta
      = match consume_callback with
        | Some callback =>
            filter (λ task, callback task = CallbackRaisesException) tasks
        | None => []
        end.
Proof.
  revert cs. induction tasks as [|task rest IH]; intros cs Hsafe.
  - exists []. rewrite app_nil_r. cbn. by destruct consume_callback.
  - destruct (consumer_step_calls consume_callback task rest cs)
      as (delta & ending & Hstep & Htaken & Hdone & Hcalled & Hlogged & Hend).
    assert (ending = Continues) as ->.
    { destruct ending; [done |]. destruct (proj1 Hend eq_refl) as (f & Hf & Hraise).
      destruct (Hsafe f task Hf (list_elem_of_here _ _) Hraise). }
    destruct (IH (cs ++ delta)
                (λ f t Hf Ht, Hsafe f t Hf (list_elem_of_further _ _ _ Ht)))
      as (delta' & Hrun & Htaken' & Hdone' & Hcalled' & Hlogged').
    exists (delta ++ delta').
    change (S (List.length (task :: rest)) + extra)%nat
      with (S (S (List.length rest) + extra)).
    cbn [_consume_task_queue]. rewrite Hstep, Hrun, app_assoc.
    split; [done |].
    rewrite taken_app, done_count_app, called_app, logged_app.
    rewrite Htaken, Htaken', Hdone, Hdone', Hcalled, Hcalled', Hlogged, Hlogged'.
    repeat split; try done.
    + by destruct consume_callback.
    + destruct consume_callback as [callback|]; [|done].
      rewrite filter_cons. destruct (callback task) eqn:Hcb.
      * by rewrite decide_False.
      * by rewrite decide_True.
      * by rewrite decide_False.
Qed.

Lemma consumer_drains_the_queue_in_order_witness :
  ∃ delta,
    _consume_task_queue 4
      (Some (λ task, if String.eqb task "bad" then CallbackRaisesException
                     else CallbackReturns))
      (mk_ConsumerState ["a"; "bad"; "c"] [])
    = ConsumerSuspended (mk_ConsumerState [] ([] ++ delta))
    ∧ taken delta = ["a"; "bad"; "c"]
    ∧ done_count delta = 3%nat
    ∧ called delta = ["a"; "bad"; "c"]
    ∧ logged delta = ["bad"].
Proof.
  destruct (consumer_drains_the_queue_in_order
              (Some (λ task, if String.eqb task "bad" then CallbackRaisesException
                             else CallbackReturns))
              ["a"; "bad"; "c"] [] 0) as (delta & Hrun & Ht & Hd & Hc & Hl).
  - intros callback task [= <-] _. by destruct (String.eqb task "bad").
  - exists delta. by rewrite Hl in *.
Defined.

(** * The two loops together *)

(** One turn of either loop keeps what has reached the consumer or is on
    its way to it, and keeps the task queue in place. *)
Lemma pipeline_turn_in_order (self : EventProcessor)
    (consume_callback : option (string → callback_outcome)) (w : Timeline)
    (verdict : string → bool * dict) (p : Pipeline) (which : loop_name) :
  processor_decides self w verdict →
  is_Some (buffer (processor_state p)) →
  in_order verdict (pipeline_turn self consume_callback w p which)
  = in_order verdict p
  ∧ is_Some (buffer (processor_state
                       (pipeline_turn self consume_callback w p which))).
Proof.
  intros Hdec [items Hb]. unfold in_order.
  destruct p as [[events b l cs] clog pend cend]. cbn in Hb. subst b.
  destruct which; cbn [pipeline_turn processor_ended consumer_ended
                       processor_state consumer_log buffer].
  - destruct pend; [by eauto |].
    destruct events as [|event rest]; [by eauto |].
    destruct (step_decided self w verdict event rest (Some items) l cs Hdec)
      as (l' & cs' & -> & _).
    cbn. split; [|by eauto].
    unfold forwarded. cbn [omap list_omap].
    destruct (resolved verdict event); cbn; by rewrite <- ?app_assoc, ?app_nil_r.
  - destruct cend; [by eauto |].
    destruct items as [|task rest]; [by eauto |].
    destruct (consumer_step_calls consume_callback task rest clog)
      as (delta & ending & -> & Htaken & _).
    cbn. split; [|by eauto].
    by rewrite taken_app, Htaken, <- app_assoc.
Qed.

(** X16. Between the event queue and the callback nothing is lost,
    duplicated or reordered, in whatever order the scheduler lets the
    processor loop and the consumer loop take their turns, and whatever the
    callback raises: with a validator that looks at the path alone, the tasks
    taken so far, followed by the task queue, followed by what the waiting
    events will give, is the same list after any schedule as before it. *)
Theorem pipeline_keeps_paths_in_order (self : EventProcessor)
    (consume_callback : option (string → callback_outcome)) (w : Timeline)
    (verdict : string → bool * dict) (schedule : list loop_name) (p : Pipeline) :
  processor_decides self w verdict →
  is_Some (buffer (processor_state p)) →
  in_order verdict (run_schedule self consume_callback w schedule p)
  = in_order verdict p.
Proof.
  intros Hdec. revert p. unfold run_schedule.
  induction schedule as [|which schedule IH]; intros p Hb; cbn [foldl]; [done |].
  destruct (pipeline_turn_in_order self consume_callback w verdict p which Hdec Hb)
    as [Hturn Hb'].
  by rewrite IH, Hturn.
Qed.

Lemma pipeline_keeps_paths_in_order_witness :
  in_order (λ _, (true, ∅))
    (run_schedule (mk_EventProcessor None 0)
       (Some (λ _, CallbackRaisesException)) (static ∅)
       [ConsumerLoop; ProcessorLoop; ConsumerLoop; ProcessorLoop; ProcessorLoop;
        ConsumerLoop]
       (mk_Pipeline
          (mk_State [mk_Event "/a" false; mk_Event "/b" false] (Some ["/0"]) [] [])
          [] false false))
  = ["/0"; "/a"; "/b"].
Proof.
  rewrite (pipeline_keeps_paths_in_order (mk_EventProcessor None 0)
           (Some (λ _, CallbackRaisesException)) (static ∅) (λ _, (true, ∅))
           [ConsumerLoop; ProcessorLoop; ConsumerLoop; ProcessorLoop; ProcessorLoop;
            ConsumerLoop]
           (mk_Pipeline
              (mk_State [mk_Event "/a" false; mk_Event "/b" false] (Some ["/0"])
                 [] [])
              [] false false)).
  - reflexivity.
  - by intros p.
  - by eexists.
Defined.

(** On the sample schedule every path has been handed to the callback at the
    end, in the order of arrival. *)
Example sample_schedule_delivers_everything :
  let p := run_schedule (mk_EventProcessor None 0)
             (Some (λ _, CallbackRaisesException)) (static ∅)
             [ConsumerLoop; ProcessorLoop; ConsumerLoop; ProcessorLoop;
              ProcessorLoop; ConsumerLoop; ConsumerLoop]
             (mk_Pipeline
                (mk_State [mk_Event "/a" false; mk_Event "/b" false]
                   (Some ["/0"]) [] [])
                [] false false) in
  called (consumer_log p) = ["/0"; "/a"; "/b"]
  ∧ buffer (processor_state p) = Some []
  ∧ event_queue (processor_state p) = [].
Proof. by vm_compute. Qed.

(** * Further properties of the synchronous handlers *)

Section Listing.

Import Synchronous.

(** X17. What one pass over a listing finds, when no [ShotLog.json] entry
    fails with an error other than [OSError]: it returns [True] exactly when
    the listing holds a [ShotLog.json] that can be read and is not empty.
    Other files, and entries of that name that are empty or cannot be opened,
    neither help nor hide it. *)
Theorem scan_finds_a_filled_ShotLog (entries : list (string * io string)) :
  ("ShotLog.json", Err UnicodeDecodeError) ∉ entries →
  scan entries = Ok true
  ↔ ∃ text, ("ShotLog.json", Ok text) ∈ entries ∧ text ≠ "".
Proof.
  induction entries as [|[file content] entries IH]; intros Hsafe; cbn [scan].
  - split; [done |]. intros (text & Hin & _). by apply elem_of_nil in Hin.
  - apply not_elem_of_cons in Hsafe as [Hhead Hsafe]. specialize (IH Hsafe).
    destruct (String.eqb_spec file "ShotLog.json") as [-> | Hfile].
    + destruct content as [text|[]].
      * destruct (decide (text = "")) as [-> | Htext].
        -- rewrite bool_decide_eq_false_2 by by intros [].
           rewrite IH. split; intros (text & Hin & Hne); exists text.
           ++ split; [by apply list_elem_of_further | done].
           ++ apply elem_of_cons in Hin as [[= ->] | Hin]; [by destruct Hne | done].
        -- rewrite bool_decide_eq_true_2 by done. split; [|done].
           intros _. exists text. split; [apply list_elem_of_here | done].
      * rewrite IH. split; intros (text & Hin & Hne); exists text.
        -- split; [by apply list_elem_of_further | done].
        -- apply elem_of_cons in Hin as [[=] | Hin]; done.
      * done.
    + rewrite IH. split; intros (text & Hin & Hne); exists text.
      * split; [by apply list_elem_of_further | done].
      * apply elem_of_cons in Hin as [[= Hf _] | Hin]; [by destruct Hfile | done].
Qed.

Lemma scan_finds_a_filled_ShotLog_witness :
  scan [("notes.txt", Err UnicodeDecodeError); ("ShotLog.json", Err OSError);
        ("ShotLog.json", Ok ""); ("ShotLog.json", Ok "{}")] = Ok true.
Proof.
  apply (scan_finds_a_filled_ShotLog
           [("notes.txt", Err UnicodeDecodeError); ("ShotLog.json", Err OSError);
            ("ShotLog.json", Ok ""); ("ShotLog.json", Ok "{}")]).
  - intros Hin. repeat (apply elem_of_cons in Hin as [[=] | Hin]).
    by apply elem_of_nil in Hin.
  - exists "{}". split; [repeat constructor | done].
Defined.

(** A pass that returns [True] saw a filled [ShotLog.json]. *)
Lemma scan_true (entries : list (string * io string)) :
  scan entries = Ok true →
  ∃ text, ("ShotLog.json", Ok text) ∈ entries ∧ text ≠ "".
Proof.
  induction entries as [|[file content] entries IH]; cbn [scan]; [done |].
  assert ((∃ text, ("ShotLog.json", Ok text) ∈ entries ∧ text ≠ "") →
          ∃ text, ("ShotLog.json", Ok text) ∈ (file, content) :: entries ∧ text ≠ "")
    as Hlater.
  { intros (text & Hin & Hne). exists text. by split; [apply list_elem_of_further |]. }
  destruct (String.eqb_spec file "ShotLog.json") as [-> | Hfile]; [|by auto].
  destruct content as [text|[]]; [| by auto | done].
  destruct (decide (text = "")) as [-> | Htext].
  - rewrite bool_decide_eq_false_2 by by intros []. auto.
  - intros _. exists text. split; [apply list_elem_of_here | done].
Qed.

(** The loop returns [True] only from a pass it started below the limit. *)
Lemma poll_true (w : World) (path : string) (start_time limit : Z) (fuel : nat) :
  ∀ n seen,
    outcome_of (poll fuel w path start_time limit n seen) = Returned true →
    ∃ k, (n ≤ k)%nat ∧ clock w k - start_time < limit
         ∧ listing_pass w k path = Ok true.
Proof.
  induction fuel as [|fuel IH]; intros n seen; cbn [poll outcome_of]; [done |].
  destruct (Z.ltb_spec (clock w n - start_time) limit) as [Hlt|]; [|done].
  destruct (listing_pass w n path) as [[]|e] eqn:Hpass; cbn [outcome_of]; [| |done].
  - intros _. by exists n.
  - intros (k & Hk & Hrest)%IH. exists k. split; [lia | done].
Qed.

End Listing.

(** The statements of [validate], the same for both classes. *)
Lemma polling_validate_unfold (cls : Synchronous.handler_class)
    (self : Synchronous.EventHandler) (event : Event) (timeout : option Z)
    (fuel : nat) (w : Synchronous.World) :
  Synchronous.validate cls self event timeout fuel w =
  if negb (is_directory event)
  then Synchronous.mk_run (Synchronous.Returned false) []
  else if negb (Synchronous.path_exists w (src_path event))
       then Synchronous.mk_run (Synchronous.Returned false) []
       else Synchronous.poll fuel w (src_path event) (Synchronous.clock w 0)
              (Synchronous.timeout_or_default self timeout) 1 [].
Proof. by destruct cls. Qed.

(** X18. The polling [validate] never accepts on trust: it returns [True]
    only for a directory event whose path existed, and only because a listing
    it started while the elapsed time was below the limit held a
    [ShotLog.json] that could be read and was not empty. *)
Theorem polling_accepts_only_a_filled_ShotLog (cls : Synchronous.handler_class)
    (self : Synchronous.EventHandler) (event : Event) (timeout : option Z)
    (fuel : nat) (w : Synchronous.World) :
  Synchronous.outcome_of (Synchronous.validate cls self event timeout fuel w)
  = Synchronous.Returned true →
  is_directory event = true
  ∧ Synchronous.path_exists w (src_path event) = true
  ∧ ∃ k entries text,
      (1 ≤ k)%nat
      ∧ Synchronous.clock w k - Synchronous.clock w 0
        < Synchronous.timeout_or_default self timeout
      ∧ Synchronous.listdir w k (src_path event) = Synchronous.Ok entries
      ∧ ("ShotLog.json", Synchronous.Ok text) ∈ entries
      ∧ text ≠ "".
Proof.
  rewrite polling_validate_unfold.
  destruct (is_directory event); cbn [negb]; [|done].
  destruct (Synchronous.path_exists w (src_path event)); cbn [negb]; [|done].
  intros (k & Hk & Hlt & Hpass)%poll_true.
  split; [done |]. split; [done |].
  unfold Synchronous.listing_pass in Hpass.
  destruct (Synchronous.listdir w k (src_path event)) as [entries|] eqn:Hlist; [|done].
  destruct (scan_true entries Hpass) as (text & Hin & Hne).
  by exists k, entries, text.
Qed.

Lemma polling_accepts_only_a_filled_ShotLog_witness :
  ∃ k entries text,
    (1 ≤ k)%nat
    ∧ Synchronous.clock filling_world k - Synchronous.clock filling_world 0 < 5
    ∧ Synchronous.listdir filling_world k "/data/shot" = Synchronous.Ok entries
    ∧ ("ShotLog.json", Synchronous.Ok text) ∈ entries
    ∧ text ≠ "".
Proof.
  apply (polling_accepts_only_a_filled_ShotLog Synchronous.LastShotEventHandler
           sample_handler folder_event (Some 5) 4 filling_world).
  reflexivity.
Defined.

(** X19. What a handler does with an event. With validation switched off
    it puts the event's path into the buffer and counts it, whatever is on
    disk. With validation on, it puts the path (once, and counts it once)
    only when [validate] found a filled [ShotLog.json] in a directory that
    existed, and otherwise leaves buffer and counter alone. A
    [TestDataEventHandler] does nothing at all on a modification. *)
Theorem handler_puts_the_event_path (cls : Synchronous.handler_class)
    (self : Synchronous.EventHandler) (event : Event) (fuel : nat)
    (w : Synchronous.World) :
  let put := [SyncHandler.BufferPut (src_path event);
              SyncHandler.CounterInc (src_path event)] in
  SyncHandler.process_event cls self false event fuel w = SyncHandler.Handled put
  ∧ (∀ effects,
       SyncHandler.process_event cls self true event fuel w
       = SyncHandler.Handled effects →
       effects = []
       ∨ (effects = put
          ∧ is_directory event = true
          ∧ Synchronous.path_exists w (src_path event) = true
          ∧ ∃ k entries text,
              Synchronous.listdir w k (src_path event) = Synchronous.Ok entries
              ∧ ("ShotLog.json", Synchronous.Ok text) ∈ entries
              ∧ text ≠ ""))
  ∧ (∀ enabled,
       SyncHandler.on_modified Synchronous.TestDataEventHandler self enabled
         event fuel w = SyncHandler.Handled []).
Proof.
  cbv zeta. split; [done |]. split; [|done].
  intros effects. unfold SyncHandler.process_event.
  rewrite polling_validate_unfold.
  destruct (is_directory event); cbn [negb Synchronous.outcome_of];
    [|intros [= <-]; by left].
  destruct (Synchronous.path_exists w (src_path event));
    cbn [negb Synchronous.outcome_of]; [|intros [= <-]; by left].
  destruct (Synchronous.outcome_of _) as [[]| |] eqn:Hout; [| |done..].
  - intros [= <-]. right.
    apply poll_true in Hout as (k & _ & _ & Hpass).
    unfold Synchronous.listing_pass in Hpass.
    destruct (Synchronous.listdir w k (src_path event)) as [entries|] eqn:Hlist;
      [|done].
    destruct (scan_true entries Hpass) as (text & Hin & Hne).
    do 3 (split; [done |]). by exists k, entries, text.
  - intros [= <-]. by left.
Qed.

Lemma handler_puts_the_event_path_witness :
  [SyncHandler.BufferPut "/data/shot"; SyncHandler.CounterInc "/data/shot"] = []
  ∨ ([SyncHandler.BufferPut "/data/shot"; SyncHandler.CounterInc "/data/shot"]
     = [SyncHandler.BufferPut (src_path folder_event);
        SyncHandler.CounterInc (src_path folder_event)]
     ∧ is_directory folder_event = true
     ∧ Synchronous.path_exists filling_world (src_path folder_event) = true
     ∧ ∃ k entries text,
         Synchronous.listdir filling_world k (src_path folder_event)
         = Synchronous.Ok entries
         ∧ ("ShotLog.json", Synchronous.Ok text) ∈ entries
         ∧ text ≠ "").
Proof.
  apply (proj1 (proj2 (handler_puts_the_event_path
                         Synchronous.LastShotEventHandler
                         (Synchronous.mk_EventHandler 5) folder_event 4
                         filling_world))).
  reflexivity.
Defined.
